(** * The greedy I/O scheduler (greedy-iosched.c)

    A shallow embedding of the elevator in [greedy-iosched.c] together with
    the part of the kernel's intrusive list API ([<linux/list.h>]) that it
    calls.  The embedding keeps the pointer structure of the C code: the two
    queues are circular doubly linked lists threaded through the
    [queuelist] field of the requests, and every list operation is the
    sequence of pointer stores that the kernel macro performs. *)

From Stdlib Require Import ZArith Lia.
From stdpp Require Import base decidable option list numbers sets.

Set Warnings "-clear-no-such-hyp".

(** ** Memory *)

(** A [struct request *]: the address of a request object. *)
Definition rq_ptr := N.

(** A [struct list_head *].  The elevator only ever holds pointers to four
    kinds of list cells. *)
Inductive lh_ptr : Type :=
  | gd_higher                      (* &gd->higher      *)
  | gd_lower                       (* &gd->lower       *)
  | q_queue_head                   (* &q->queue_head   *)
  | rq_queuelist (rq : rq_ptr).    (* &rq->queuelist   *)

Global Instance lh_ptr_eq_dec : EqDecision lh_ptr.
Proof. solve_decision. Defined.

(** [struct list_head { struct list_head *next, *prev; }] *)
Record list_head := { next : lh_ptr; prev : lh_ptr }.

Global Instance list_head_eq_dec : EqDecision list_head.
Proof. solve_decision. Defined.

(** Modelled from the spec: [struct request] is declared in the kernel
    headers, not in this file; the elevator reads its start sector and its
    length in sectors (spec, data model: start_sector and length_sectors)
    and links it through its [queuelist] field. *)
Record request := {
  start_sector : Z;
  length_sectors : Z;
  queuelist : list_head
}.

(** [struct greedy_data] *)
Record greedy_data := {
  higher : list_head;
  lower : list_head;
  prev_pos : Z
}.

(** The objects the elevator reads and writes: its private data
    ([q->elevator->elevator_data]), the dispatch list of the request queue
    ([q->queue_head]) and the request objects themselves. *)
Record kstate := {
  elevator_data : greedy_data;
  queue_head : list_head;
  rq_mem : rq_ptr -> request
}.

(** [*p] for a [struct list_head *p]. *)
Definition load (m : kstate) (p : lh_ptr) : list_head :=
  match p with
  | gd_higher => higher (elevator_data m)
  | gd_lower => lower (elevator_data m)
  | q_queue_head => queue_head m
  | rq_queuelist r => queuelist (rq_mem m r)
  end.

(** [*p = v] *)
Definition store (p : lh_ptr) (v : list_head) (m : kstate) : kstate :=
  match p with
  | gd_higher =>
      {| elevator_data :=
           {| higher := v; lower := lower (elevator_data m);
              prev_pos := prev_pos (elevator_data m) |};
         queue_head := queue_head m; rq_mem := rq_mem m |}
  | gd_lower =>
      {| elevator_data :=
           {| higher := higher (elevator_data m); lower := v;
              prev_pos := prev_pos (elevator_data m) |};
         queue_head := queue_head m; rq_mem := rq_mem m |}
  | q_queue_head =>
      {| elevator_data := elevator_data m; queue_head := v;
         rq_mem := rq_mem m |}
  | rq_queuelist r =>
      {| elevator_data := elevator_data m; queue_head := queue_head m;
         rq_mem := fun r' =>
           if decide (r' = r)
           then {| start_sector := start_sector (rq_mem m r);
                   length_sectors := length_sectors (rq_mem m r);
                   queuelist := v |}
           else rq_mem m r' |}
  end.

(** [p->next = x] and [p->prev = x] *)
Definition set_next (p x : lh_ptr) (m : kstate) : kstate :=
  store p {| next := x; prev := prev (load m p) |} m.

Definition set_prev (p x : lh_ptr) (m : kstate) : kstate :=
  store p {| next := next (load m p); prev := x |} m.

(** [gd->prev_pos = v] *)
Definition set_prev_pos (v : Z) (m : kstate) : kstate :=
  {| elevator_data :=
       {| higher := higher (elevator_data m);
          lower := lower (elevator_data m);
          prev_pos := v |};
     queue_head := queue_head m; rq_mem := rq_mem m |}.

(** ** Sector arithmetic *)

(** Modelled from the spec: [sector_t] is declared in the kernel headers;
    the spec gives it as an unsigned 64-bit offset. *)
Definition sector_bits : Z := 64.

(** Reduction of an arithmetic result to [sector_t]. *)
Definition to_sector (z : Z) : Z := z mod 2 ^ sector_bits.

(** Conversion of a [sector_t] value to [int] (32 bits, two's
    complement), as in the assignments to [up_dist] and [down_dist]. *)
Definition to_int (z : Z) : Z := (z + 2 ^ 31) mod 2 ^ 32 - 2 ^ 31.

(** [blk_rq_pos(rq)], [blk_rq_sectors(rq)] and [rq_end_sector(rq)]
    (the latter is [blk_rq_pos(rq) + blk_rq_sectors(rq)] in sector_t). *)
Definition blk_rq_pos (m : kstate) (rq : rq_ptr) : Z :=
  start_sector (rq_mem m rq).

Definition blk_rq_sectors (m : kstate) (rq : rq_ptr) : Z :=
  length_sectors (rq_mem m rq).

Definition rq_end_sector (m : kstate) (rq : rq_ptr) : Z :=
  to_sector (blk_rq_pos m rq + blk_rq_sectors m rq).

(** ** The list API of <linux/list.h> used by the elevator *)

(** [list->next = list; list->prev = list;] *)
Definition INIT_LIST_HEAD (list : lh_ptr) (m : kstate) : kstate :=
  let m := set_next list list m in
  set_prev list list m.

(** [next->prev = new; new->next = next; new->prev = prev;
     prev->next = new;] *)
Definition __list_add (new prev' next' : lh_ptr) (m : kstate) : kstate :=
  let m := set_prev next' new m in
  let m := set_next new next' m in
  let m := set_prev new prev' m in
  set_next prev' new m.

(** [list_add(new, head)] is [__list_add(new, head, head->next)]: the new
    cell goes right AFTER [head]. *)
Definition list_add (new head : lh_ptr) (m : kstate) : kstate :=
  __list_add new head (next (load m head)) m.

(** [list_add_tail(new, head)] is [__list_add(new, head->prev, head)]: the
    new cell goes right BEFORE [head]. *)
Definition list_add_tail (new head : lh_ptr) (m : kstate) : kstate :=
  __list_add new (prev (load m head)) head m.

(** [next->prev = prev; prev->next = next;] *)
Definition __list_del (prev' next' : lh_ptr) (m : kstate) : kstate :=
  let m := set_prev next' prev' m in
  set_next prev' next' m.

(** [__list_del(entry->prev, entry->next); INIT_LIST_HEAD(entry);] *)
Definition list_del_init (entry : lh_ptr) (m : kstate) : kstate :=
  let m := __list_del (prev (load m entry)) (next (load m entry)) m in
  INIT_LIST_HEAD entry m.

(** [head->next == head] *)
Definition list_empty (head : lh_ptr) (m : kstate) : bool :=
  bool_decide (next (load m head) = head).

(** [list_entry(ptr, struct request, queuelist)]: the request whose
    [queuelist] field [ptr] points to.  Applied to a list head it would
    compute a pointer to no request at all; that case is [None]. *)
Definition list_entry (ptr : lh_ptr) : option rq_ptr :=
  match ptr with
  | rq_queuelist r => Some r
  | _ => None
  end.

(** [list_first_entry(head, struct request, queuelist)] *)
Definition list_first_entry (head : lh_ptr) (m : kstate) : option rq_ptr :=
  list_entry (next (load m head)).

(** The loop
      [list_for_each(pos, head) { list_rq = list_entry(pos, ...);
                                  if (stop(list_rq)) break; }]
    started at [pos]; the result is the value of [pos] when the loop is
    left.  [fuel] bounds the number of iterations: [None] means that the
    bound was reached or that [pos] pointed to no request. *)
Fixpoint list_for_each_break (fuel : nat) (stop : rq_ptr -> bool)
    (head pos : lh_ptr) (m : kstate) : option lh_ptr :=
  if decide (pos = head) then Some pos
  else
    match fuel with
    | O => None
    | S fuel' =>
        match list_entry pos with
        | None => None
        | Some list_rq =>
            if stop list_rq then Some pos
            else list_for_each_break fuel' stop head (next (load m pos)) m
        end
    end.

(** [elv_dispatch_add_tail(q, rq)] of the block layer: its effect on the
    objects modelled here is [list_add_tail(&rq->queuelist, &q->queue_head)]. *)
Definition elv_dispatch_add_tail (rq : rq_ptr) (m : kstate) : kstate :=
  list_add_tail (rq_queuelist rq) q_queue_head m.

(** ** The elevator *)

Definition greedy_merged_requests (rq next' : rq_ptr) (m : kstate) : kstate :=
  list_del_init (rq_queuelist next') m.

(** Lines 33-61 of [greedy_dispatch]: the choice of [target].
    [Some None] is the [return 0] branch. *)
Definition greedy_dispatch_target (m : kstate) : option (option rq_ptr) :=
  let gd := elevator_data m in
  if negb (list_empty gd_higher m) then
    target ← list_first_entry gd_higher m;
    if negb (list_empty gd_lower m) then
      lower' ← list_first_entry gd_lower m;
      let up_dist := to_int (to_sector (blk_rq_pos m target - prev_pos gd)) in
      let down_dist := to_int (to_sector (prev_pos gd - blk_rq_pos m lower')) in
      if (up_dist >? down_dist)%Z then Some (Some lower')
      else Some (Some target)
    else Some (Some target)
  else if negb (list_empty gd_lower m) then
    target ← list_first_entry gd_lower m;
    Some (Some target)
  else Some None.

Definition greedy_dispatch (force : Z) (m : kstate) : option (Z * kstate) :=
  choice ← greedy_dispatch_target m;
  match choice with
  | None => Some (0%Z, m)
  | Some target =>
      let m := list_del_init (rq_queuelist target) m in
      let m := elv_dispatch_add_tail target m in
      let m := set_prev_pos (rq_end_sector m target) m in
      Some (1%Z, m)
  end.

Definition add_to_higher (fuel : nat) (rq : rq_ptr) (m : kstate)
    : option kstate :=
  pos ← list_for_each_break fuel
           (fun list_rq => (blk_rq_pos m list_rq >? blk_rq_pos m rq)%Z)
           gd_higher (next (load m gd_higher)) m;
  Some (list_add (rq_queuelist rq) pos m).

Definition add_to_lower (fuel : nat) (rq : rq_ptr) (m : kstate)
    : option kstate :=
  pos ← list_for_each_break fuel
           (fun list_rq => (blk_rq_pos m list_rq <? blk_rq_pos m rq)%Z)
           gd_lower (next (load m gd_lower)) m;
  Some (list_add (rq_queuelist rq) pos m).

Definition greedy_add_request (fuel : nat) (rq : rq_ptr) (m : kstate)
    : option kstate :=
  if (prev_pos (elevator_data m) >? blk_rq_pos m rq)%Z
  then add_to_lower fuel rq m
  else add_to_higher fuel rq m.

(** [greedy_former_request] and [greedy_latter_request] return a request
    pointer and leave memory as it is; [Some None] is the [NULL] result and
    [None] a pointer to no request (the [list_entry] of a list head). *)
Definition greedy_former_request (rq : rq_ptr) (m : kstate)
    : option (option rq_ptr * kstate) :=
  let p := prev (load m (rq_queuelist rq)) in
  if decide (p = gd_higher ∨ p = gd_lower) then Some (None, m)
  else r ← list_entry p; Some (Some r, m).

Definition greedy_latter_request (rq : rq_ptr) (m : kstate)
    : option (option rq_ptr * kstate) :=
  let n := next (load m (rq_queuelist rq)) in
  if decide (n = gd_higher ∨ n = gd_lower) then Some (None, m)
  else r ← list_entry n; Some (Some r, m).

Definition ENOMEM : Z := 12.

(** [greedy_init_queue]; the two booleans say whether [elevator_alloc] and
    [kmalloc_node] returned memory. *)
Definition greedy_init_queue (eq_ok gd_ok : bool) (m : kstate) : Z * kstate :=
  if negb eq_ok then ((- ENOMEM)%Z, m)
  else if negb gd_ok then ((- ENOMEM)%Z, m)
  else
    let m := INIT_LIST_HEAD gd_higher m in
    let m := INIT_LIST_HEAD gd_lower m in
    let m := set_prev_pos 0 m in
    (0%Z, m).

(** [greedy_exit_queue]: [BUG_ON] stops the kernel, otherwise the private
    data is freed. *)
Inductive exit_result := Freed | BUG.

Definition greedy_exit_queue (m : kstate) : exit_result :=
  if negb (list_empty gd_higher m) then BUG
  else if negb (list_empty gd_lower m) then BUG
  else Freed.

(** ** Observing a list *)

(** The requests met when walking [next] pointers from [pos] up to
    [head]. *)
Fixpoint list_walk (fuel : nat) (head pos : lh_ptr) (m : kstate)
    : option (list rq_ptr) :=
  if decide (pos = head) then Some []
  else
    match fuel with
    | O => None
    | S fuel' =>
        r ← list_entry pos;
        l ← list_walk fuel' head (next (load m pos)) m;
        Some (r :: l)
    end.

(** The entries of the list with head [head], front to back. *)
Definition list_entries (fuel : nat) (head : lh_ptr) (m : kstate)
    : option (list rq_ptr) :=
  list_walk fuel head (next (load m head)) m.

(** ** Test memories *)

(** A request object as the block layer hands it over: the sector fields
    filled in, [queuelist] initialised to the empty list. *)
Definition blk_rq_init (r : rq_ptr) (pos len : Z) : request :=
  {| start_sector := pos; length_sectors := len;
     queuelist := {| next := rq_queuelist r; prev := rq_queuelist r |} |}.

(** A memory with an empty dispatch list, request [r] at sector
    [sectors r] with length [len], and the elevator's private data not yet
    initialised. *)
Definition boot_mem (sectors : rq_ptr -> Z) (len : Z) : kstate :=
  {| elevator_data :=
       {| higher := {| next := q_queue_head; prev := q_queue_head |};
          lower := {| next := q_queue_head; prev := q_queue_head |};
          prev_pos := 12345 |};
     queue_head := {| next := q_queue_head; prev := q_queue_head |};
     rq_mem := fun r => blk_rq_init r (sectors r) len |}.

(** Successive calls of [greedy_add_request]. *)
Fixpoint add_requests (fuel : nat) (rqs : list rq_ptr) (m : kstate)
    : option kstate :=
  match rqs with
  | [] => Some m
  | rq :: rqs' => m' ← greedy_add_request fuel rq m; add_requests fuel rqs' m'
  end.

(** ** Well-formed lists *)

(** [a] and [b] are neighbours: [a->next == b] and [b->prev == a]. *)
Definition linked (m : kstate) (a b : lh_ptr) : Prop :=
  next (load m a) = b ∧ prev (load m b) = a.

(** A doubly linked path from [a] through the cells [l] to [z]. *)
Fixpoint chain (m : kstate) (a : lh_ptr) (l : list lh_ptr) (z : lh_ptr)
    : Prop :=
  match l with
  | [] => linked m a z
  | b :: l' => linked m a b ∧ chain m b l' z
  end.

Global Instance linked_dec m a b : Decision (linked m a b).
Proof. unfold linked. apply _. Defined.

Global Instance chain_dec m a l z : Decision (chain m a l z).
Proof. revert a. induction l; simpl; intros; apply _. Defined.

(** The three list heads of the model. *)
Definition is_head (h : lh_ptr) : Prop := list_entry h = None.

Global Instance is_head_dec h : Decision (is_head h).
Proof. unfold is_head. apply _. Defined.

(** The circular list with head [head] holds exactly the requests [l],
    front to back. *)
Definition is_list (m : kstate) (head : lh_ptr) (l : list rq_ptr) : Prop :=
  chain m head (rq_queuelist <$> l) head.

(** A well-formed state: the Higher queue holds [hi], the Lower queue
    [lo], the dispatch list [out], and no request sits in two places. *)
Definition wf (m : kstate) (hi lo out : list rq_ptr) : Prop :=
  NoDup (hi ++ lo ++ out) ∧
  is_list m gd_higher hi ∧ is_list m gd_lower lo ∧
  is_list m q_queue_head out.

Global Instance wf_dec m hi lo out : Decision (wf m hi lo out).
Proof. unfold wf, is_list. apply _. Defined.

(** ** The effect of the list operations on the sequence of entries *)

(** The value of [pos] after the scanning loop of [add_to_higher] /
    [add_to_lower]: the first entry that satisfies the break condition,
    or the list head. *)
Definition scan_pos (stop : rq_ptr -> bool) (head : lh_ptr)
    (l : list rq_ptr) : lh_ptr :=
  match find stop l with
  | Some r => rq_queuelist r
  | None => head
  end.

(** [x] put right after the entry [c]. *)
Fixpoint add_after (x c : rq_ptr) (l : list rq_ptr) : list rq_ptr :=
  match l with
  | [] => []
  | r :: l' => if decide (r = c) then r :: x :: l' else r :: add_after x c l'
  end.

(** The entries after [list_add(&x->queuelist, pos)]. *)
Definition list_add_entries (x : rq_ptr) (pos : lh_ptr) (l : list rq_ptr)
    : list rq_ptr :=
  match list_entry pos with
  | Some c => add_after x c l
  | None => x :: l
  end.

(** The entries after the scan followed by [list_add]: [x] lands right
    after the first entry that satisfies [stop], and at the front when
    there is none. *)
Fixpoint add_after_first (stop : rq_ptr -> bool) (x : rq_ptr)
    (l : list rq_ptr) : option (list rq_ptr) :=
  match l with
  | [] => None
  | r :: l' =>
      if stop r then Some (r :: x :: l')
      else l'' ← add_after_first stop x l'; Some (r :: l'')
  end.

Definition queue_add (stop : rq_ptr -> bool) (x : rq_ptr)
    (l : list rq_ptr) : list rq_ptr :=
  default (x :: l) (add_after_first stop x l).

(** The entries after [list_del_init(&x->queuelist)]. *)
Definition list_del_entries (x : rq_ptr) (l : list rq_ptr) : list rq_ptr :=
  filter (λ r, r ≠ x) l.

(** The request that [greedy_dispatch] picks when the Higher queue holds
    [hi] and the Lower queue [lo]. *)
Definition select_head (m : kstate) (hi lo : list rq_ptr) : option rq_ptr :=
  let pp := prev_pos (elevator_data m) in
  match hi, lo with
  | [], [] => None
  | [], l :: _ => Some l
  | t :: _, [] => Some t
  | t :: _, l :: _ =>
      if (to_int (to_sector (blk_rq_pos m t - pp)) >?
          to_int (to_sector (pp - blk_rq_pos m l)))%Z
      then Some l else Some t
  end.

(** What [greedy_dispatch] does with the request it picked. *)
Definition dispatch_effect (target : rq_ptr) (m : kstate) : kstate :=
  let m := list_del_init (rq_queuelist target) m in
  let m := elv_dispatch_add_tail target m in
  set_prev_pos (rq_end_sector m target) m.

(** The request that the last [elv_dispatch_add_tail] handed to the
    dispatch list: the entry at the tail of [q->queue_head]. *)
Definition dispatched (m : kstate) : option rq_ptr :=
  list_entry (prev (load m q_queue_head)).

(** The request [chosen] is at least as near to the last position as the
    head of either queue. *)
Definition nearest_head (m : kstate) (chosen : rq_ptr) : Prop :=
  ∀ h r, h = gd_higher ∨ h = gd_lower → list_first_entry h m = Some r →
    (Z.abs (blk_rq_pos m chosen - prev_pos (elevator_data m))
     ≤ Z.abs (blk_rq_pos m r - prev_pos (elevator_data m)))%Z.

(** ** The elevator as the block layer sees it *)

(** The calls that the block layer makes through the [ops] table of
    [elevator_greedy]. *)
Inductive elevator_call :=
  | elevator_add_req_fn (rq : rq_ptr)
  | elevator_dispatch_fn (force : Z)
  | elevator_merge_req_fn (rq next' : rq_ptr)
  | elevator_former_req_fn (rq : rq_ptr)
  | elevator_latter_req_fn (rq : rq_ptr).

Global Instance elevator_call_eq_dec : EqDecision elevator_call.
Proof. solve_decision. Defined.

(** The state after a call. *)
Definition elevator_greedy (fuel : nat) (c : elevator_call) (m : kstate)
    : option kstate :=
  match c with
  | elevator_add_req_fn rq => greedy_add_request fuel rq m
  | elevator_dispatch_fn force => snd <$> greedy_dispatch force m
  | elevator_merge_req_fn rq next' => Some (greedy_merged_requests rq next' m)
  | elevator_former_req_fn rq => snd <$> greedy_former_request rq m
  | elevator_latter_req_fn rq => snd <$> greedy_latter_request rq m
  end.

(** What the block layer guarantees when it makes a call: a request it
    adds is in no list, a request it asks about or merges away is queued. *)
Definition call_ok (c : elevator_call) (hi lo out : list rq_ptr) : Prop :=
  match c with
  | elevator_add_req_fn rq => rq ∉ hi ++ lo ++ out
  | elevator_dispatch_fn _ => True
  | elevator_merge_req_fn _ next' => next' ∈ hi ++ lo
  | elevator_former_req_fn rq => rq ∈ hi ++ lo
  | elevator_latter_req_fn rq => rq ∈ hi ++ lo
  end.

Global Instance call_ok_dec c hi lo out : Decision (call_ok c hi lo out).
Proof. destruct c; simpl; apply _. Defined.

(** A sequence of calls made under that contract, each call finding the
    queues within the iteration bound [fuel]. *)
Inductive elevator_run (fuel : nat)
    : kstate → list elevator_call → kstate → Prop :=
  | run_nil m : elevator_run fuel m [] m
  | run_cons m c cs m1 m2 hi lo out :
      wf m hi lo out → call_ok c hi lo out →
      length hi ≤ fuel → length lo ≤ fuel →
      elevator_greedy fuel c m = Some m1 →
      elevator_run fuel m1 cs m2 →
      elevator_run fuel m (c :: cs) m2.

(** An executable check of such a sequence: the queues are read back by
    walking the lists, and the contract is decided on what was read. *)
Fixpoint elevator_run_check (fuel : nat) (cs : list elevator_call)
    (m : kstate) : option kstate :=
  match cs with
  | [] => Some m
  | c :: cs' =>
      match list_entries fuel gd_higher m, list_entries fuel gd_lower m,
            list_entries fuel q_queue_head m with
      | Some hi, Some lo, Some out =>
          if decide (wf m hi lo out ∧ call_ok c hi lo out ∧
                     length hi ≤ fuel ∧ length lo ≤ fuel)
          then m1 ← elevator_greedy fuel c m; elevator_run_check fuel cs' m1
          else None
      | _, _, _ => None
      end
  end.

(** The start sectors of a list of requests. *)
Definition sectors_of (m : kstate) (l : list rq_ptr) : list Z :=
  blk_rq_pos m <$> l.

(** A list of sectors that never goes down. *)
Fixpoint non_decreasing (l : list Z) : bool :=
  match l with
  | a :: (b :: _) as t => (a <=? b)%Z && non_decreasing t
  | _ => true
  end.

(** One dispatch call as the block layer sees it: the request handed over,
    if any, and the state afterwards. *)
Definition dispatch_request (force : Z) (m : kstate)
    : option (option rq_ptr * kstate) :=
  '(ret, m') ← greedy_dispatch force m;
  Some (if (ret =? 0)%Z then None else dispatched m', m').

(** [n] dispatch calls in a row: the requests handed over, in order. *)
Fixpoint dispatch_requests (n : nat) (m : kstate)
    : option (list (option rq_ptr) * kstate) :=
  match n with
  | O => Some ([], m)
  | S n' =>
      '(r, m1) ← dispatch_request 0 m;
      '(rs, m2) ← dispatch_requests n' m1;
      Some (r :: rs, m2)
  end.

(** The start sectors of the entries of a list. *)
Definition list_sectors (fuel : nat) (head : lh_ptr) (m : kstate)
    : option (list Z) :=
  sectors_of m <$> list_entries fuel head m.

(** The Higher queue after adding the requests [rqs]: its entries and
    their start sectors. *)
Definition higher_after (fuel : nat) (rqs : list rq_ptr) (m : kstate)
    : option (list rq_ptr * list Z) :=
  m' ← add_requests fuel rqs m;
  hi ← list_entries fuel gd_higher m';
  Some (hi, sectors_of m' hi).

(** Add the requests [rqs], then make [n] dispatch calls: the sectors of
    the Higher and of the Lower queue before the first dispatch, the
    sectors of the requests handed over, and the last position at the
    end. *)
Definition add_then_dispatch (fuel : nat) (rqs : list rq_ptr) (n : nat)
    (m : kstate) : option (list Z * list Z * list (option Z) * Z) :=
  match add_requests fuel rqs m with
  | None => None
  | Some m1 =>
      match list_sectors fuel gd_higher m1, list_sectors fuel gd_lower m1,
            dispatch_requests n m1 with
      | Some hi, Some lo, Some (rs, m2) =>
          Some (hi, lo, option_map (blk_rq_pos m2) <$> rs,
                prev_pos (elevator_data m2))
      | _, _, _ => None
      end
  end.

(** ** Test scenarios *)

(** Requests 1, 2, 3, 4 at sectors 100, 50, 500, 10, of length 1, and a
    freshly created scheduler. *)
Definition scenario_A_sectors (r : rq_ptr) : Z :=
  match r with
  | 1%N => 100 | 2%N => 50 | 3%N => 500 | 4%N => 10 | _ => 0
  end%Z.

Definition scenario_A : kstate :=
  snd (greedy_init_queue true true (boot_mem scenario_A_sectors 1)).

(** Requests A = 1 and B = 2, both at sector 10 and of length 1, and a
    freshly created scheduler. *)
Definition scenario_C : kstate :=
  snd (greedy_init_queue true true (boot_mem (λ _, 10%Z) 1)).

(** Requests 1, 2, 3 at sectors 10, 80, 49, of length 1; request 3 is
    added to a freshly created scheduler and dispatched, which leaves both
    queues empty and the last position at 50. *)
Definition scenario_B_sectors (r : rq_ptr) : Z :=
  match r with 1%N => 10 | 2%N => 80 | _ => 49 end%Z.

Definition scenario_B : option kstate :=
  m ← greedy_add_request 4 3%N
        (snd (greedy_init_queue true true (boot_mem scenario_B_sectors 1)));
  '(_, m') ← greedy_dispatch 0 m;
  Some m'.

(** Requests 1, 2, 3 at sectors 10, 20, 19, of length 1, and a freshly
    created scheduler. *)
Definition seek_sectors (r : rq_ptr) : Z :=
  match r with 1%N => 10 | 2%N => 20 | 3%N => 19 | _ => 0 end%Z.

Definition seek_fresh : kstate :=
  snd (greedy_init_queue true true (boot_mem seek_sectors 1)).

(** The states of the scenarios after their first steps. *)
Definition scenario_A_one : kstate :=
  default scenario_A (greedy_add_request 4 1%N scenario_A).

Definition scenario_A_queued : kstate :=
  default scenario_A (add_requests 4 [1; 2; 3; 4]%N scenario_A).

Definition scenario_B_start : kstate := default scenario_A scenario_B.

Definition scenario_B_queued : kstate :=
  default scenario_A (add_requests 4 [1; 2]%N scenario_B_start).

(** Requests 1 and 2 are added, one dispatch follows (it hands over
    request 2 and moves the last position to 21), then request 3 is
    added. *)
Definition seek_calls : list elevator_call :=
  [elevator_add_req_fn 1%N; elevator_add_req_fn 2%N;
   elevator_dispatch_fn 0; elevator_add_req_fn 3%N].

Definition seek_final : kstate :=
  default seek_fresh (elevator_run_check 4 seek_calls seek_fresh).

(** ** Further predicates and test states *)

(** The head of the list [l] is at a start sector that no entry of [l]
    exceeds; and the same with "falls below". *)
Definition head_is_max (m : kstate) (l : list rq_ptr) : Prop :=
  ∀ h r, head l = Some h → r ∈ l → (blk_rq_pos m r ≤ blk_rq_pos m h)%Z.

Definition head_is_min (m : kstate) (l : list rq_ptr) : Prop :=
  ∀ h r, head l = Some h → r ∈ l → (blk_rq_pos m h ≤ blk_rq_pos m r)%Z.

(** The cell [p] is linked to itself, as [INIT_LIST_HEAD] and
    [list_del_init] leave it. *)
Definition self_linked (m : kstate) (p : lh_ptr) : Prop :=
  next (load m p) = p ∧ prev (load m p) = p.

Global Instance self_linked_dec m p : Decision (self_linked m p).
Proof. unfold self_linked. apply _. Defined.

(** Requests 1, 2, 3 at sectors 2^31 + 100, 90 and 99, of length 1.
    Request 3 is added to a freshly created scheduler and dispatched (the
    last position becomes 100), then requests 1 and 2 are added: request 1
    is the head of Higher, 2^31 sectors above the last position, request 2
    the head of Lower, 10 sectors below it. *)
Definition far_sectors (r : rq_ptr) : Z :=
  match r with 1%N => 2 ^ 31 + 100 | 2%N => 90 | _ => 99 end%Z.

Definition far_fresh : kstate :=
  snd (greedy_init_queue true true (boot_mem far_sectors 1)).

Definition far_calls : list elevator_call :=
  [elevator_add_req_fn 3%N; elevator_dispatch_fn 0;
   elevator_add_req_fn 1%N; elevator_add_req_fn 2%N].

Definition far_state : kstate :=
  default far_fresh (elevator_run_check 4 far_calls far_fresh).

(** Scenario A after its four requests were added and request 4 was
    merged away. *)
Definition scenario_A_merged : kstate :=
  greedy_merged_requests 3%N 4%N scenario_A_queued.

(** The list operations are reasoned about through their lemmas only. *)
Global Arguments load : simpl never.
Global Arguments store : simpl never.
Global Arguments __list_add : simpl never.
Global Arguments list_add : simpl never.
Global Arguments list_add_tail : simpl never.
Global Arguments list_del_init : simpl never.

(** * Proofs *)

(** ** Loads after stores *)

Lemma load_store p v m p' :
  load (store p v m) p' = if decide (p' = p) then v else load m p'.
Proof.
  unfold load, store.
  destruct p, p'; simpl; repeat case_decide; try done; congruence.
Qed.

Lemma next_set_next p x m p' :
  next (load (set_next p x m) p') =
  if decide (p' = p) then x else next (load m p').
Proof. unfold set_next. rewrite load_store. by case_decide. Qed.

Lemma prev_set_next p x m p' :
  prev (load (set_next p x m) p') = prev (load m p').
Proof. unfold set_next. rewrite load_store. case_decide; by subst. Qed.

Lemma next_set_prev p x m p' :
  next (load (set_prev p x m) p') = next (load m p').
Proof. unfold set_prev. rewrite load_store. case_decide; by subst. Qed.

Lemma prev_set_prev p x m p' :
  prev (load (set_prev p x m) p') =
  if decide (p' = p) then x else prev (load m p').
Proof. unfold set_prev. rewrite load_store. by case_decide. Qed.

Lemma prev_pos_store p v m :
  prev_pos (elevator_data (store p v m)) = prev_pos (elevator_data m).
Proof. by destruct p. Qed.

Lemma start_sector_store p v m r :
  start_sector (rq_mem (store p v m) r) = start_sector (rq_mem m r).
Proof. unfold store. destruct p; simpl; try done. case_decide; by subst. Qed.

Lemma length_sectors_store p v m r :
  length_sectors (rq_mem (store p v m) r) = length_sectors (rq_mem m r).
Proof. unfold store. destruct p; simpl; try done. case_decide; by subst. Qed.

(** What a state keeps under list surgery: the last position and the
    sector fields of every request. *)
Definition same_sectors (m m' : kstate) : Prop :=
  prev_pos (elevator_data m') = prev_pos (elevator_data m) ∧
  (∀ r, blk_rq_pos m' r = blk_rq_pos m r) ∧
  (∀ r, blk_rq_sectors m' r = blk_rq_sectors m r).

Lemma same_sectors_refl m : same_sectors m m.
Proof. done. Qed.

Lemma same_sectors_trans m1 m2 m3 :
  same_sectors m1 m2 → same_sectors m2 m3 → same_sectors m1 m3.
Proof.
  intros (?&?&?) (?&?&?). split_and!; intros; etrans; eauto.
Qed.

Lemma same_sectors_store p v m : same_sectors m (store p v m).
Proof.
  split_and!; intros; unfold blk_rq_pos, blk_rq_sectors;
    auto using prev_pos_store, start_sector_store, length_sectors_store.
Qed.

Lemma same_sectors_set_next p x m : same_sectors m (set_next p x m).
Proof. apply same_sectors_store. Qed.

Lemma same_sectors_set_prev p x m : same_sectors m (set_prev p x m).
Proof. apply same_sectors_store. Qed.

Lemma same_sectors___list_add new pv nx m :
  same_sectors m (__list_add new pv nx m).
Proof.
  unfold __list_add.
  repeat (eapply same_sectors_trans;
          [|apply same_sectors_set_next || apply same_sectors_set_prev]).
  apply same_sectors_refl.
Qed.

Lemma same_sectors_list_del_init entry m :
  same_sectors m (list_del_init entry m).
Proof.
  unfold list_del_init, __list_del, INIT_LIST_HEAD.
  repeat (eapply same_sectors_trans;
          [|apply same_sectors_set_next || apply same_sectors_set_prev]).
  apply same_sectors_refl.
Qed.

(** The pointer fields after [__list_add] and after [list_del_init]. *)
Lemma next___list_add new pv nx m p :
  next (load (__list_add new pv nx m) p) =
  if decide (p = pv) then new
  else if decide (p = new) then nx else next (load m p).
Proof.
  unfold __list_add.
  rewrite next_set_next, next_set_prev, next_set_next, next_set_prev.
  done.
Qed.

Lemma prev___list_add new pv nx m p :
  prev (load (__list_add new pv nx m) p) =
  if decide (p = new) then pv
  else if decide (p = nx) then new else prev (load m p).
Proof.
  unfold __list_add.
  rewrite prev_set_next, prev_set_prev, prev_set_next, prev_set_prev.
  done.
Qed.

Lemma next_list_del_init entry m p :
  next (load (list_del_init entry m) p) =
  if decide (p = entry) then entry
  else if decide (p = prev (load m entry)) then next (load m entry)
       else next (load m p).
Proof.
  unfold list_del_init, INIT_LIST_HEAD, __list_del.
  rewrite next_set_prev, next_set_next, next_set_next, next_set_prev.
  done.
Qed.

Lemma prev_list_del_init entry m p :
  prev (load (list_del_init entry m) p) =
  if decide (p = entry) then entry
  else if decide (p = next (load m entry)) then prev (load m entry)
       else prev (load m p).
Proof.
  unfold list_del_init, INIT_LIST_HEAD, __list_del.
  rewrite prev_set_prev, prev_set_next, prev_set_next, prev_set_prev.
  done.
Qed.

(** ** Paths under list surgery *)

Global Instance rq_queuelist_inj : Inj (=) (=) rq_queuelist.
Proof. by intros ?? [= ->]. Qed.

Lemma is_head_not_entry h (l : list rq_ptr) :
  is_head h → h ∉ rq_queuelist <$> l.
Proof.
  intros Hh (r & -> & _)%list_elem_of_fmap. discriminate Hh.
Qed.

Lemma chain_app m a l1 b l2 z :
  chain m a (l1 ++ b :: l2) z ↔ chain m a l1 b ∧ chain m b l2 z.
Proof.
  revert a. induction l1 as [|c l1 IH]; simpl; intros a; [done|].
  rewrite IH. tauto.
Qed.

Lemma chain_snoc m a l b z :
  chain m a (l ++ [b]) z ↔ chain m a l b ∧ linked m b z.
Proof. apply chain_app. Qed.

(** A path is kept by a state change that keeps [next] in its sources and
    [prev] in its targets. *)
Lemma chain_frame m m' a l z :
  (∀ p, p ∈ a :: l → next (load m' p) = next (load m p)) →
  (∀ p, p ∈ l ++ [z] → prev (load m' p) = prev (load m p)) →
  chain m a l z → chain m' a l z.
Proof.
  revert a. induction l as [|b l IH]; simpl; intros a Hn Hp.
  - intros [Hab Hba]. split; [rewrite Hn|rewrite Hp]; set_solver.
  - intros [[Hab Hba] Hc].
    split; [split; [rewrite Hn|rewrite Hp]; set_solver|].
    apply IH; [| |done]; intros; [apply Hn|apply Hp]; set_solver.
Qed.

Lemma chain_frame_list_add m new pos a l z :
  pos ∉ a :: l → new ∉ a :: l ++ [z] → next (load m pos) ∉ l ++ [z] →
  chain m a l z → chain (list_add new pos m) a l z.
Proof.
  intros Hpos Hnew Hnx. apply chain_frame; intros p Hp; unfold list_add.
  - rewrite next___list_add. repeat case_decide; set_solver.
  - rewrite prev___list_add. repeat case_decide; set_solver.
Qed.

Lemma chain_frame_list_del_init m entry a l z :
  entry ∉ a :: l ++ [z] → prev (load m entry) ∉ a :: l →
  next (load m entry) ∉ l ++ [z] →
  chain m a l z → chain (list_del_init entry m) a l z.
Proof.
  intros He Hpv Hnx. apply chain_frame; intros p Hp.
  - rewrite next_list_del_init. repeat case_decide; set_solver.
  - rewrite prev_list_del_init. repeat case_decide; set_solver.
Qed.

(** [list_add] at the start of a path. *)
Lemma chain_list_add_here m new pos l z :
  NoDup (pos :: l) → z ∉ l → new ∉ pos :: l ++ [z] →
  chain m pos l z → chain (list_add new pos m) pos (new :: l) z.
Proof.
  intros Hnd Hz Hnew Hc.
  assert (new ≠ pos) by set_solver.
  assert (new ≠ z) by set_solver.
  destruct l as [|b l]; simpl in *.
  - destruct Hc as [Hn Hp]. unfold linked, list_add.
    rewrite !next___list_add, !prev___list_add, Hn.
    repeat case_decide; try done; congruence.
  - destruct Hc as [[Hn Hp] Hc].
    apply NoDup_cons in Hnd as [Hpos Hnd].
    apply NoDup_cons in Hnd as [Hb Hnd].
    assert (new ≠ b) by set_solver.
    unfold linked. split_and!.
    + unfold list_add. rewrite next___list_add. by case_decide.
    + unfold list_add. rewrite prev___list_add. by case_decide.
    + unfold list_add. rewrite next___list_add, Hn.
      repeat case_decide; try done; congruence.
    + unfold list_add. rewrite prev___list_add, Hn.
      repeat case_decide; try done; congruence.
    + apply chain_frame_list_add; [set_solver|set_solver| |done].
      rewrite Hn. set_solver.
Qed.

(** [list_del_init] of the cell that follows [pv]. *)
Lemma chain_list_del_init_here m pv entry l z :
  NoDup (pv :: entry :: l) → z ∉ entry :: l →
  linked m pv entry → chain m entry l z →
  chain (list_del_init entry m) pv l z.
Proof.
  intros Hnd Hz [Hn Hp] Hc.
  apply NoDup_cons in Hnd as [Hpv Hnd].
  apply NoDup_cons in Hnd as [He Hnd].
  assert (pv ≠ entry) by set_solver.
  assert (z ≠ entry) by set_solver.
  destruct l as [|b l]; simpl in *.
  - destruct Hc as [Hn' Hp']. unfold linked.
    rewrite next_list_del_init, prev_list_del_init, Hp, Hn'.
    repeat case_decide; try done; congruence.
  - destruct Hc as [[Hn' Hp'] Hc].
    apply NoDup_cons in Hnd as [Hb Hnd].
    assert (b ≠ entry) by set_solver.
    unfold linked. split_and!.
    + rewrite next_list_del_init, Hp, Hn'.
      repeat case_decide; try done; congruence.
    + rewrite prev_list_del_init, Hp, Hn'.
      repeat case_decide; try done; congruence.
    + apply chain_frame_list_del_init; [set_solver| |  |done].
      * rewrite Hp. set_solver.
      * rewrite Hn'. set_solver.
Qed.

Lemma chain_next_in m a l z p :
  chain m a l z → p ∈ a :: l → next (load m p) ∈ l ++ [z].
Proof.
  revert a. induction l as [|b l IH]; simpl; intros a.
  - intros [Hn _] ->%list_elem_of_singleton. set_solver.
  - intros [[Hn _] Hc] [->|Hp]%elem_of_cons; [set_solver|].
    apply elem_of_cons. right. by eapply IH.
Qed.

Lemma chain_prev_in m a l z p :
  chain m a l z → p ∈ l ++ [z] → prev (load m p) ∈ a :: l.
Proof.
  revert a. induction l as [|b l IH]; simpl; intros a.
  - intros [_ Hp] ->%list_elem_of_singleton. set_solver.
  - intros [[_ Hp] Hc] [->|Hin]%elem_of_cons; [set_solver|].
    apply elem_of_cons. right. by eapply IH.
Qed.

(** ** Lists of requests under list surgery *)

Lemma NoDup_ring h (l : list rq_ptr) :
  is_head h → NoDup l → NoDup (h :: (rq_queuelist <$> l)).
Proof.
  intros Hh Hl. apply NoDup_cons. split; [by apply is_head_not_entry|].
  by apply (NoDup_fmap_2 _).
Qed.

Lemma is_list_list_add m h l new pos :
  is_head h → NoDup l → new ∉ l → is_list m h l →
  pos ∈ h :: (rq_queuelist <$> l) →
  is_list (list_add (rq_queuelist new) pos m) h (list_add_entries new pos l).
Proof.
  unfold is_list. intros Hh Hnd Hnew Hc Hpos.
  pose proof (NoDup_ring h l Hh Hnd) as Hring.
  assert (Hnew' : rq_queuelist new ∉ h :: (rq_queuelist <$> l) ++ [h]).
  { rewrite !not_elem_of_cons, not_elem_of_app, list_elem_of_fmap.
    split_and!.
    - intros <-. discriminate Hh.
    - intros (r & [= ->] & ?). done.
    - intros <-%list_elem_of_singleton. discriminate Hh. }
  apply elem_of_cons in Hpos as [->|Hpos].
  - unfold list_add_entries. rewrite Hh. simpl fmap.
    apply chain_list_add_here; try done.
    by apply is_head_not_entry.
  - apply list_elem_of_fmap in Hpos as (c & -> & Hc').
    unfold list_add_entries. simpl.
    apply list_elem_of_split in Hc' as (l1 & l2 & ->).
    assert (add_after new c (l1 ++ c :: l2) = l1 ++ c :: new :: l2) as ->.
    { clear -Hnd. induction l1 as [|r l1 IH]; simpl.
      - by rewrite decide_True.
      - apply NoDup_cons in Hnd as [Hr Hnd].
        rewrite decide_False by set_solver. by rewrite IH. }
    rewrite !fmap_app, !fmap_cons in *.
    apply chain_app in Hc as [Hc1 Hc2]. apply chain_app. split.
    + apply chain_frame_list_add; [| | |done].
      * apply NoDup_cons in Hring as [_ Hring].
        apply NoDup_app in Hring as (_ & Hdis & _).
        rewrite not_elem_of_cons. split; [by intros <-|].
        intros Hin. apply (Hdis _ Hin). set_solver.
      * set_solver.
      * intros Hnx.
        pose proof (chain_next_in _ _ _ _ _ Hc2
                      ltac:(apply list_elem_of_here)) as Hin.
        apply NoDup_cons in Hring as [Hh' Hring].
        apply NoDup_app in Hring as (_ & Hdis & Hnd2).
        apply NoDup_cons in Hnd2 as [Hc2' _].
        apply elem_of_app in Hin as [Hin|Hin%list_elem_of_singleton].
        -- apply elem_of_app in Hnx as [Hnx|Hnx%list_elem_of_singleton].
           ++ apply (Hdis _ Hnx). set_solver.
           ++ rewrite Hnx in Hin. done.
        -- rewrite Hin in Hnx. set_solver.
    + apply NoDup_cons in Hring as [Hh' Hring].
      apply NoDup_app in Hring as (_ & _ & Hnd2).
      apply chain_list_add_here; [done|set_solver|set_solver|done].
Qed.

Lemma list_del_entries_notin x l : x ∉ l → list_del_entries x l = l.
Proof.
  unfold list_del_entries. induction l as [|r l IH]; [done|].
  intros [Hr Hl]%not_elem_of_cons.
  rewrite filter_cons_True by done. by rewrite IH.
Qed.

Lemma list_del_entries_split x l1 l2 :
  NoDup (l1 ++ x :: l2) → list_del_entries x (l1 ++ x :: l2) = l1 ++ l2.
Proof.
  intros Hnd. apply NoDup_app in Hnd as (_ & Hdis & Hnd2).
  apply NoDup_cons in Hnd2 as [Hx2 _].
  unfold list_del_entries.
  rewrite filter_app, filter_cons_False by (intros ?; done).
  fold (list_del_entries x l1). fold (list_del_entries x l2).
  rewrite !list_del_entries_notin; [done|done|].
  intros Hin. apply (Hdis x Hin). set_solver.
Qed.

Lemma is_list_list_del_init m h l x :
  is_head h → NoDup l → x ∈ l → is_list m h l →
  is_list (list_del_init (rq_queuelist x) m) h (list_del_entries x l).
Proof.
  unfold is_list. intros Hh Hnd Hx Hc.
  pose proof (NoDup_ring h l Hh Hnd) as Hring.
  apply list_elem_of_split in Hx as (l1 & l2 & ->).
  rewrite list_del_entries_split by done.
  rewrite !fmap_app, !fmap_cons in *.
  apply chain_app in Hc as [Hc1 Hc2].
  set (e := rq_queuelist x) in *.
  set (L1 := rq_queuelist <$> l1) in *. set (L2 := rq_queuelist <$> l2) in *.
  apply NoDup_cons in Hring as [HhL Hring].
  apply NoDup_app in Hring as (HndL1 & Hdis & Hnd2).
  assert (Hhe : h ≠ e) by set_solver.
  assert (HhL2 : h ∉ L2) by set_solver.
  pose proof Hnd2 as Hnd2'.
  apply NoDup_cons in Hnd2' as [HeL2 HndL2].
  assert (HeL1 : e ∉ L1).
  { intros Hin. apply (Hdis _ Hin). set_solver. }
  destruct (decide (l1 = [])) as [->|Hne].
  - simpl in *. subst L1. simpl in *.
    apply chain_list_del_init_here; [|set_solver|done|done].
    apply NoDup_cons. split; [set_solver|done].
  - destruct (exists_last Hne) as (l1' & pv & ->).
    subst L1. rewrite fmap_app in *. simpl in *.
    set (L1 := rq_queuelist <$> l1') in *. set (p := rq_queuelist pv) in *.
    apply chain_snoc in Hc1 as [Hc1 Hlk].
    rewrite <- app_assoc. simpl. apply chain_app.
    assert (HpL2 : p ∉ e :: L2).
    { intros Hin. apply (Hdis p); [set_solver|done]. }
    split.
    + apply chain_frame_list_del_init; [| | |done].
      * set_solver.
      * destruct Hlk as [_ ->].
        apply NoDup_app in HndL1 as (_ & Hd1 & _).
        rewrite not_elem_of_cons. split; [set_solver|].
        intros Hin. apply (Hd1 _ Hin). set_solver.
      * pose proof (chain_next_in _ _ _ _ _ Hc2
                      ltac:(apply list_elem_of_here)) as Hin.
        intros Hnx.
        apply elem_of_app in Hin as [Hin|Hin%list_elem_of_singleton].
        -- apply (Hdis (next (load m e))); [set_solver|set_solver].
        -- rewrite Hin in Hnx. apply HhL. set_solver.
    + apply chain_list_del_init_here; [|set_solver|done|done].
      apply NoDup_cons. split; [done|done].
Qed.

(** Cells of two lists with different heads and no common request. *)
Lemma ring_disjoint h1 (l1 : list rq_ptr) h2 (l2 : list rq_ptr) p :
  is_head h1 → is_head h2 → h1 ≠ h2 → (∀ r, r ∈ l1 → r ∉ l2) →
  p ∈ h1 :: (rq_queuelist <$> l1) → p ∉ h2 :: (rq_queuelist <$> l2).
Proof.
  intros Hh1 Hh2 Hne Hdis [->|Hp]%elem_of_cons.
  - apply not_elem_of_cons. split; [done|by apply is_head_not_entry].
  - apply list_elem_of_fmap in Hp as (r & -> & Hr).
    apply not_elem_of_cons. split; [intros <-; discriminate Hh2|].
    intros (r' & [= <-] & Hr')%list_elem_of_fmap. by apply (Hdis r).
Qed.

Lemma ring_rotate h (L : list lh_ptr) p : p ∈ L ++ [h] ↔ p ∈ h :: L.
Proof. set_solver. Qed.

Lemma is_list_frame_list_add m h1 l1 h2 l2 new pos :
  is_head h1 → is_head h2 → h1 ≠ h2 → (∀ r, r ∈ l1 → r ∉ l2) →
  new ∉ l2 → is_list m h1 l1 → pos ∈ h1 :: (rq_queuelist <$> l1) →
  is_list m h2 l2 → is_list (list_add (rq_queuelist new) pos m) h2 l2.
Proof.
  unfold is_list. intros Hh1 Hh2 Hne Hdis Hnew Hc1 Hpos Hc2.
  apply chain_frame_list_add; [| | |done].
  - by apply (ring_disjoint h1 l1).
  - rewrite not_elem_of_cons, ring_rotate, not_elem_of_cons.
    assert (rq_queuelist new ≠ h2) by (intros <-; discriminate Hh2).
    split_and!; try done.
    intros (r & [= <-] & Hr)%list_elem_of_fmap. done.
  - rewrite ring_rotate. apply (ring_disjoint h1 l1); try done.
    apply ring_rotate. by eapply chain_next_in.
Qed.

Lemma is_list_frame_list_del_init m h1 l1 h2 l2 x :
  is_head h1 → is_head h2 → h1 ≠ h2 → (∀ r, r ∈ l1 → r ∉ l2) →
  is_list m h1 l1 → x ∈ l1 →
  is_list m h2 l2 → is_list (list_del_init (rq_queuelist x) m) h2 l2.
Proof.
  unfold is_list. intros Hh1 Hh2 Hne Hdis Hc1 Hx Hc2.
  assert (Hin : rq_queuelist x ∈ h1 :: (rq_queuelist <$> l1)).
  { apply elem_of_cons. right. by apply list_elem_of_fmap_2. }
  apply chain_frame_list_del_init; [| | |done].
  - rewrite not_elem_of_cons, ring_rotate, not_elem_of_cons.
    assert (rq_queuelist x ≠ h2) by (intros <-; discriminate Hh2).
    split_and!; try done.
    intros (r & [= <-] & Hr)%list_elem_of_fmap. by apply (Hdis x).
  - apply (ring_disjoint h1 l1); try done.
    eapply chain_prev_in; [done|]. by apply ring_rotate.
  - rewrite ring_rotate. apply (ring_disjoint h1 l1); try done.
    apply ring_rotate. by eapply chain_next_in.
Qed.

(** ** The scanning loop and the list walk *)

Lemma list_for_each_break_chain m h stop fuel (l : list rq_ptr) p :
  is_head h → chain m p (rq_queuelist <$> l) h → length l ≤ fuel →
  list_for_each_break fuel stop h (next (load m p)) m
  = Some (scan_pos stop h l).
Proof.
  intros Hh. revert p fuel.
  induction l as [|r l IH]; simpl; intros p fuel.
  - intros [-> _] _. unfold scan_pos. simpl.
    destruct fuel; simpl; by rewrite decide_True.
  - intros [[Hn _] Hc] Hlen. destruct fuel as [|fuel]; [lia|].
    simpl. rewrite Hn.
    rewrite decide_False by (intros <-; discriminate Hh).
    simpl. unfold scan_pos. simpl. destruct (stop r); [done|].
    apply IH; [done|lia].
Qed.

Lemma list_walk_chain m h fuel (l : list rq_ptr) p :
  is_head h → chain m p (rq_queuelist <$> l) h → length l ≤ fuel →
  list_walk fuel h (next (load m p)) m = Some l.
Proof.
  intros Hh. revert p fuel.
  induction l as [|r l IH]; simpl; intros p fuel.
  - intros [-> _] _. destruct fuel; simpl; by rewrite decide_True.
  - intros [[Hn _] Hc] Hlen. destruct fuel as [|fuel]; [lia|].
    simpl. rewrite Hn.
    rewrite decide_False by (intros <-; discriminate Hh).
    simpl. rewrite IH by (done || lia). done.
Qed.

(** A well-formed list is read back by the walk. *)
Lemma list_entries_is_list m h fuel l :
  is_head h → is_list m h l → length l ≤ fuel →
  list_entries fuel h m = Some l.
Proof. intros. by apply list_walk_chain. Qed.

Lemma scan_pos_in stop h l : scan_pos stop h l ∈ h :: (rq_queuelist <$> l).
Proof.
  unfold scan_pos. destruct (find stop l) as [r|] eqn:Hf; [|set_solver].
  apply find_some in Hf as [Hin _].
  apply elem_of_cons. right. apply list_elem_of_fmap_2.
  by apply list_elem_of_In.
Qed.

Lemma add_after_first_find stop x l c :
  NoDup l → find stop l = Some c →
  add_after_first stop x l = Some (add_after x c l).
Proof.
  induction l as [|r l IH]; [done|]. simpl.
  intros [Hr Hnd]%NoDup_cons Hf. destruct (stop r) eqn:Hs.
  - injection Hf as ->. by rewrite decide_True.
  - rewrite decide_False.
    + by rewrite IH.
    + intros ->. apply find_some in Hf as [Hin _].
      by apply list_elem_of_In in Hin.
Qed.

Lemma add_after_first_find_None stop x l :
  find stop l = None → add_after_first stop x l = None.
Proof.
  induction l as [|r l IH]; [done|]. simpl.
  destruct (stop r); [done|]. intros Hf. by rewrite IH.
Qed.

Lemma list_add_entries_scan stop h x l :
  is_head h → NoDup l →
  list_add_entries x (scan_pos stop h l) l = queue_add stop x l.
Proof.
  intros Hh Hnd. unfold queue_add, list_add_entries, scan_pos.
  destruct (find stop l) as [c|] eqn:Hf; simpl.
  - by rewrite (add_after_first_find _ _ _ c).
  - by rewrite Hh, add_after_first_find_None.
Qed.

Lemma queue_add_perm stop x l : queue_add stop x l ≡ₚ x :: l.
Proof.
  unfold queue_add.
  destruct (add_after_first stop x l) as [l'|] eqn:He; simpl; [|done].
  revert l' He. induction l as [|r l IH]; simpl; intros l'; [done|].
  destruct (stop r).
  - intros [= <-]. apply Permutation_swap.
  - destruct (add_after_first stop x l) as [l''|]; simpl; [|done].
    intros [= <-]. rewrite (IH l'' eq_refl). apply Permutation_swap.
Qed.

(** ** The elevator operations on well-formed states *)

Lemma wf_inv m hi lo out :
  wf m hi lo out →
  NoDup hi ∧ NoDup lo ∧ NoDup out ∧
  (∀ r, r ∈ hi → r ∉ lo) ∧ (∀ r, r ∈ hi → r ∉ out) ∧
  (∀ r, r ∈ lo → r ∉ out).
Proof.
  intros (Hnd & _).
  apply NoDup_app in Hnd as (Hhi & Hd1 & Hnd).
  apply NoDup_app in Hnd as (Hlo & Hd2 & Hout).
  split_and!; try done; intros r Hr Hr'; apply (Hd1 r Hr); set_solver.
Qed.

Lemma is_head_gd_higher : is_head gd_higher.
Proof. done. Qed.
Lemma is_head_gd_lower : is_head gd_lower.
Proof. done. Qed.
Lemma is_head_q_queue_head : is_head q_queue_head.
Proof. done. Qed.

Local Hint Resolve is_head_gd_higher is_head_gd_lower is_head_q_queue_head
  : core.

Lemma add_to_higher_wf m hi lo out fuel rq :
  wf m hi lo out → rq ∉ hi ++ lo ++ out → length hi ≤ fuel →
  ∃ m', add_to_higher fuel rq m = Some m' ∧ same_sectors m m' ∧
    wf m' (queue_add (λ r, (blk_rq_pos m r >? blk_rq_pos m rq)%Z) rq hi)
       lo out.
Proof.
  intros Hwf Hrq Hlen.
  destruct (wf_inv _ _ _ _ Hwf) as (Hhi & Hlo & Hout & Hd1 & Hd2 & Hd3).
  destruct Hwf as (Hnd & Lhi & Llo & Lout).
  set (stop := λ r, (blk_rq_pos m r >? blk_rq_pos m rq)%Z).
  eexists. split; [|split].
  - unfold add_to_higher. fold stop.
    rewrite (list_for_each_break_chain m gd_higher stop fuel hi) by done.
    done.
  - apply same_sectors___list_add.
  - pose proof (scan_pos_in stop gd_higher hi) as Hpos.
    split_and!.
    + rewrite queue_add_perm. simpl. by apply NoDup_cons.
    + rewrite <- (list_add_entries_scan stop gd_higher) by done.
      apply is_list_list_add; try done. set_solver.
    + apply (is_list_frame_list_add m gd_higher hi); try done. set_solver.
    + apply (is_list_frame_list_add m gd_higher hi); try done. set_solver.
Qed.

Lemma add_to_lower_wf m hi lo out fuel rq :
  wf m hi lo out → rq ∉ hi ++ lo ++ out → length lo ≤ fuel →
  ∃ m', add_to_lower fuel rq m = Some m' ∧ same_sectors m m' ∧
    wf m' hi
       (queue_add (λ r, (blk_rq_pos m r <? blk_rq_pos m rq)%Z) rq lo) out.
Proof.
  intros Hwf Hrq Hlen.
  destruct (wf_inv _ _ _ _ Hwf) as (Hhi & Hlo & Hout & Hd1 & Hd2 & Hd3).
  destruct Hwf as (Hnd & Lhi & Llo & Lout).
  set (stop := λ r, (blk_rq_pos m r <? blk_rq_pos m rq)%Z).
  eexists. split; [|split].
  - unfold add_to_lower. fold stop.
    rewrite (list_for_each_break_chain m gd_lower stop fuel lo) by done.
    done.
  - apply same_sectors___list_add.
  - pose proof (scan_pos_in stop gd_lower lo) as Hpos.
    split_and!.
    + rewrite queue_add_perm. rewrite <- app_comm_cons.
      rewrite <- Permutation_middle. by apply NoDup_cons.
    + apply (is_list_frame_list_add m gd_lower lo); try done.
      * intros r Hr Hr'. by apply (Hd1 r).
      * set_solver.
    + rewrite <- (list_add_entries_scan stop gd_lower) by done.
      apply is_list_list_add; try done. set_solver.
    + apply (is_list_frame_list_add m gd_lower lo); try done. set_solver.
Qed.

(** [list_del_init] of a queued request. *)
Lemma list_del_init_wf m hi lo out x :
  wf m hi lo out → x ∈ hi ++ lo →
  wf (list_del_init (rq_queuelist x) m)
     (list_del_entries x hi) (list_del_entries x lo) out ∧
  x ∉ list_del_entries x hi ++ list_del_entries x lo ++ out.
Proof.
  intros Hwf Hx.
  destruct (wf_inv _ _ _ _ Hwf) as (Hhi & Hlo & Hout & Hd1 & Hd2 & Hd3).
  destruct Hwf as (Hnd & Lhi & Llo & Lout).
  assert (Hxout : x ∉ out).
  { apply elem_of_app in Hx as [Hx|Hx]; [by apply Hd2|by apply Hd3]. }
  assert (Hfil : list_del_entries x (hi ++ lo ++ out)
                 = list_del_entries x hi ++ list_del_entries x lo ++ out).
  { unfold list_del_entries. rewrite !filter_app.
    fold (list_del_entries x out).
    by rewrite (list_del_entries_notin x out). }
  split; [split_and!|].
  - rewrite <- Hfil. by apply NoDup_filter.
  - apply elem_of_app in Hx as [Hx|Hx].
    + by apply is_list_list_del_init.
    + rewrite list_del_entries_notin by (intros ?; by apply (Hd1 x)).
      by apply (is_list_frame_list_del_init m gd_lower lo);
        try done; intros r Hr Hr'; apply (Hd1 r).
  - apply elem_of_app in Hx as [Hx|Hx].
    + rewrite list_del_entries_notin by (by apply Hd1).
      by apply (is_list_frame_list_del_init m gd_higher hi).
    + by apply is_list_list_del_init.
  - apply elem_of_app in Hx as [Hx|Hx].
    + by apply (is_list_frame_list_del_init m gd_higher hi).
    + by apply (is_list_frame_list_del_init m gd_lower lo).
  - rewrite <- Hfil. unfold list_del_entries.
    rewrite list_elem_of_filter. tauto.
Qed.

Lemma load_set_prev_pos v m p : load (set_prev_pos v m) p = load m p.
Proof. by destruct p. Qed.

Lemma chain_set_prev_pos v m a l z :
  chain m a l z → chain (set_prev_pos v m) a l z.
Proof. apply chain_frame; intros; by rewrite load_set_prev_pos. Qed.

Lemma add_after_last x c l :
  c ∉ l → add_after x c (l ++ [c]) = l ++ [c; x].
Proof.
  induction l as [|r l IH]; simpl; intros Hc.
  - by rewrite decide_True.
  - apply not_elem_of_cons in Hc as [Hne Hc].
    rewrite decide_False by done. by rewrite IH.
Qed.

(** [list_add_tail] on a well-formed list appends. *)
Lemma is_list_list_add_tail m h l x :
  is_head h → NoDup l → x ∉ l → is_list m h l →
  list_add_tail (rq_queuelist x) h m
  = list_add (rq_queuelist x) (prev (load m h)) m ∧
  prev (load m h) ∈ h :: (rq_queuelist <$> l) ∧
  is_list (list_add_tail (rq_queuelist x) h m) h (l ++ [x]).
Proof.
  intros Hh Hnd Hx Hl.
  assert (Hpv : prev (load m h) ∈ h :: (rq_queuelist <$> l)).
  { eapply chain_prev_in; [exact Hl|]. set_solver. }
  assert (Hnx : next (load m (prev (load m h))) = h
              ∧ list_add_entries x (prev (load m h)) l = l ++ [x]).
  { unfold is_list in Hl. destruct (decide (l = [])) as [->|Hne].
    - simpl in Hl. destruct Hl as [Hn Hp]. rewrite Hp.
      unfold list_add_entries. by rewrite Hh.
    - destruct (exists_last Hne) as (l' & c & ->).
      rewrite fmap_app in Hl. simpl in Hl.
      apply chain_snoc in Hl as [_ [Hn Hp]]. rewrite Hp.
      split; [done|]. unfold list_add_entries. simpl.
      apply NoDup_app in Hnd as (_ & Hd & _).
      rewrite add_after_last; [by rewrite <- app_assoc|].
      intros Hin. apply (Hd c Hin). set_solver. }
  destruct Hnx as [Hnx Hent].
  assert (Heq : list_add_tail (rq_queuelist x) h m
              = list_add (rq_queuelist x) (prev (load m h)) m).
  { unfold list_add_tail, list_add. by rewrite Hnx. }
  split_and!; [done|done|].
  rewrite Heq, <- Hent. by apply is_list_list_add.
Qed.

Lemma list_empty_is_list m h l :
  is_head h → is_list m h l →
  list_empty h m = bool_decide (l = []) ∧
  list_first_entry h m = head l.
Proof.
  unfold is_list, list_empty, list_first_entry.
  intros Hh Hl. destruct l as [|r l]; simpl in *.
  - destruct Hl as [-> _]. by rewrite bool_decide_eq_true_2.
  - destruct Hl as [[-> _] _]. split; [|done].
    apply bool_decide_eq_false_2. intros <-. discriminate Hh.
Qed.

Lemma greedy_dispatch_target_wf m hi lo out :
  wf m hi lo out → greedy_dispatch_target m = Some (select_head m hi lo).
Proof.
  intros (_ & Lhi & Llo & _).
  destruct (list_empty_is_list m gd_higher hi) as [Eh Fh]; [done..|].
  destruct (list_empty_is_list m gd_lower lo) as [El Fl]; [done..|].
  unfold greedy_dispatch_target, select_head. rewrite Eh, El, Fh, Fl.
  destruct hi as [|t hi], lo as [|l lo]; simpl; try done.
  by destruct (_ >? _)%Z.
Qed.

Lemma select_head_in m hi lo t :
  select_head m hi lo = Some t →
  (head hi = Some t ∨ head lo = Some t) ∧ t ∈ hi ++ lo.
Proof.
  unfold select_head.
  destruct hi as [|a hi], lo as [|b lo]; simpl; try done.
  - intros [= ->]. set_solver.
  - intros [= ->]. set_solver.
  - destruct (_ >? _)%Z; intros [= ->]; set_solver.
Qed.

Lemma greedy_dispatch_wf force m hi lo out :
  wf m hi lo out →
  greedy_dispatch force m =
    Some (match select_head m hi lo with
          | None => (0%Z, m)
          | Some t => (1%Z, dispatch_effect t m)
          end).
Proof.
  intros Hwf. unfold greedy_dispatch.
  rewrite (greedy_dispatch_target_wf m hi lo out) by done. simpl.
  by destruct (select_head m hi lo).
Qed.

Lemma dispatch_effect_wf m hi lo out t :
  wf m hi lo out → t ∈ hi ++ lo →
  wf (dispatch_effect t m)
     (list_del_entries t hi) (list_del_entries t lo) (out ++ [t]) ∧
  prev_pos (elevator_data (dispatch_effect t m)) = rq_end_sector m t ∧
  (∀ r, blk_rq_pos (dispatch_effect t m) r = blk_rq_pos m r) ∧
  (∀ r, blk_rq_sectors (dispatch_effect t m) r = blk_rq_sectors m r) ∧
  prev (load (dispatch_effect t m) q_queue_head) = rq_queuelist t.
Proof.
  intros Hwf Ht. unfold dispatch_effect, elv_dispatch_add_tail.
  destruct (list_del_init_wf m hi lo out t Hwf Ht) as [Hwf1 Hfresh].
  set (m1 := list_del_init (rq_queuelist t) m) in *.
  set (hi' := list_del_entries t hi) in *.
  set (lo' := list_del_entries t lo) in *.
  destruct (wf_inv _ _ _ _ Hwf1) as (Hhi & Hlo & Hout & Hd1 & Hd2 & Hd3).
  destruct Hwf1 as (Hnd & Lhi & Llo & Lout).
  assert (Ht1 : t ∉ hi') by set_solver.
  assert (Ht2 : t ∉ lo') by set_solver.
  assert (Ht3 : t ∉ out) by set_solver.
  destruct (is_list_list_add_tail m1 q_queue_head out t)
    as (Heq & Hpv & Lout'); [done..|].
  set (m2 := list_add_tail (rq_queuelist t) q_queue_head m1) in *.
  assert (Hs : same_sectors m m2).
  { eapply same_sectors_trans; [apply same_sectors_list_del_init|].
    apply same_sectors___list_add. }
  destruct Hs as (Hs1 & Hs2 & Hs3).
  split_and!.
  - split_and!.
    + rewrite !app_assoc. apply NoDup_app. split_and!.
      * by rewrite <- !app_assoc.
      * intros r Hr ->%list_elem_of_singleton. apply Hfresh.
        by rewrite !app_assoc.
      * apply NoDup_singleton.
    + apply chain_set_prev_pos. subst m2. rewrite Heq.
      apply (is_list_frame_list_add m1 q_queue_head out); try done.
      intros r Hr Hr'. by apply (Hd2 r).
    + apply chain_set_prev_pos. subst m2. rewrite Heq.
      apply (is_list_frame_list_add m1 q_queue_head out); try done.
      intros r Hr Hr'. by apply (Hd3 r).
    + by apply chain_set_prev_pos.
  - simpl. unfold rq_end_sector. by rewrite Hs2, Hs3.
  - intros r. rewrite <- Hs2. done.
  - intros r. rewrite <- Hs3. done.
  - rewrite load_set_prev_pos. subst m2. unfold list_add_tail.
    rewrite prev___list_add. by repeat case_decide.
Qed.

Lemma greedy_merged_requests_wf m hi lo out rq nxt :
  wf m hi lo out → nxt ∈ hi ++ lo →
  wf (greedy_merged_requests rq nxt m)
     (list_del_entries nxt hi) (list_del_entries nxt lo) out ∧
  same_sectors m (greedy_merged_requests rq nxt m).
Proof.
  intros Hwf Hn. split.
  - by apply list_del_init_wf.
  - apply same_sectors_list_del_init.
Qed.

(** ** Creation *)

Lemma greedy_init_queue_wf m0 out :
  NoDup out → is_list m0 q_queue_head out →
  fst (greedy_init_queue true true m0) = 0%Z ∧
  wf (snd (greedy_init_queue true true m0)) [] [] out ∧
  prev_pos (elevator_data (snd (greedy_init_queue true true m0))) = 0%Z ∧
  (∀ r, blk_rq_pos (snd (greedy_init_queue true true m0)) r
        = blk_rq_pos m0 r) ∧
  (∀ r, blk_rq_sectors (snd (greedy_init_queue true true m0)) r
        = blk_rq_sectors m0 r).
Proof.
  intros Hnd Hl. simpl. split_and!; try done.
  unfold wf, is_list. simpl. split_and!; [done| | |].
  - apply (chain_set_prev_pos _ _ _ []). unfold chain, linked, INIT_LIST_HEAD.
    rewrite !next_set_prev, !next_set_next, !prev_set_prev,
      !prev_set_next, !prev_set_prev. by repeat case_decide.
  - apply (chain_set_prev_pos _ _ _ []). unfold chain, linked, INIT_LIST_HEAD.
    rewrite !next_set_prev, !next_set_next, !prev_set_prev.
    by repeat case_decide.
  - apply chain_set_prev_pos. unfold is_list in Hl.
    pose proof (is_head_not_entry gd_higher out is_head_gd_higher).
    pose proof (is_head_not_entry gd_lower out is_head_gd_lower).
    revert Hl. apply chain_frame; intros p Hp; unfold INIT_LIST_HEAD.
    + rewrite !next_set_prev, !next_set_next.
      repeat case_decide; set_solver.
    + rewrite !prev_set_prev, !prev_set_next.
      repeat case_decide; set_solver.
Qed.

(** * The claims *)

(** C1 (code defect).  The claim: after any sequence of Insert calls on a
    fresh scheduler the Higher queue is non-decreasing by start sector,
    and equal start sectors stay in arrival order.  The code: adding the
    requests at sectors 100 and 50 leaves the Higher queue as 100, 50; and
    adding two requests at sector 10, first 1 then 2, leaves it as 2, 1.
    [list_add] puts the new request after the entry at which the scan
    stopped, and at the front when the scan ran to the end. *)
Theorem C1_insert_not_sorted :
  higher_after 4 [1; 2]%N scenario_A = Some ([1; 2]%N, [100; 50]%Z) ∧
  non_decreasing [100; 50]%Z = false ∧
  higher_after 4 [1; 2]%N scenario_C = Some ([2; 1]%N, [10; 10]%Z).
Proof. by vm_compute. Qed.

(** C3 (code defect).  Scenario A on the code: the four requests all go to
    the Higher queue, which ends up as 500, 10, 100, 50 (not 10, 50, 100,
    500); four dispatch calls hand over the requests at 500, 10, 100, 50
    in that order, and the last position ends at 51 (not 501). *)
Theorem C3_scenario_A :
  add_then_dispatch 4 [1; 2; 3; 4]%N 4 scenario_A
  = Some ([500; 10; 100; 50]%Z, [],
          [Some 500; Some 10; Some 100; Some 50]%Z, 51%Z).
Proof. by vm_compute. Qed.

(** ** Dispatch *)

Lemma dispatched_dispatch_effect t m :
  dispatched (dispatch_effect t m) = Some t.
Proof.
  unfold dispatched, dispatch_effect, elv_dispatch_add_tail, list_add_tail.
  rewrite load_set_prev_pos, prev___list_add.
  by repeat case_decide.
Qed.

Lemma prev_pos_dispatch_effect t m :
  prev_pos (elevator_data (dispatch_effect t m))
  = rq_end_sector (dispatch_effect t m) t.
Proof. done. Qed.

Lemma dispatch_request_target force m :
  dispatch_request force m =
  match greedy_dispatch_target m with
  | None => None
  | Some None => Some (None, m)
  | Some (Some t) => Some (Some t, dispatch_effect t m)
  end.
Proof.
  unfold dispatch_request, greedy_dispatch.
  destruct (greedy_dispatch_target m) as [[t|]|]; simpl; try done.
  fold (dispatch_effect t m). by rewrite dispatched_dispatch_effect.
Qed.

Lemma to_int_to_sector z : to_int (to_sector z) = to_int z.
Proof.
  unfold to_int, to_sector, sector_bits. f_equal.
  replace (z mod 2 ^ 64 + 2 ^ 31)%Z
    with ((z + 2 ^ 31) + (- (z / 2 ^ 64) * 2 ^ 32) * 2 ^ 32)%Z.
  - apply Z_mod_plus_full.
  - pose proof (Z.div_mod z (2 ^ 64) ltac:(lia)). lia.
Qed.

Lemma to_int_id z : (- 2 ^ 31 ≤ z < 2 ^ 31)%Z → to_int z = z.
Proof. intros Hz. unfold to_int. rewrite Z.mod_small by lia. lia. Qed.

Lemma to_int_wrap z : (2 ^ 31 ≤ z < 2 ^ 32)%Z → to_int z = (z - 2 ^ 32)%Z.
Proof.
  intros Hz. unfold to_int.
  replace (z + 2 ^ 31)%Z with ((z - 2 ^ 31) + 1 * 2 ^ 32)%Z by lia.
  rewrite Z_mod_plus_full, Z.mod_small by lia. lia.
Qed.

Lemma dispatch_request_both force m t l :
  list_empty gd_higher m = false → list_empty gd_lower m = false →
  list_first_entry gd_higher m = Some t →
  list_first_entry gd_lower m = Some l →
  dispatch_request force m =
    Some (if (to_int (blk_rq_pos m t - prev_pos (elevator_data m)) >?
              to_int (prev_pos (elevator_data m) - blk_rq_pos m l))%Z
          then (Some l, dispatch_effect l m)
          else (Some t, dispatch_effect t m)).
Proof.
  intros Eh El Fh Fl.
  rewrite dispatch_request_target. unfold greedy_dispatch_target.
  rewrite Eh, El, Fh, Fl. simpl. rewrite !to_int_to_sector.
  by destruct (_ >? _)%Z.
Qed.

(** C2 (counterexample).  The state [seek_final] is reached from a fresh
    scheduler by adding the requests at sectors 10 and 20, dispatching
    once and adding the request at sector 19.  In it both queues are
    non-empty, the last position is 21, the head of Higher is request 1 at
    sector 10 and the head of Lower is request 3 at sector 19.  The
    dispatch hands over request 1, at distance 11, although the head of
    Lower is at distance 2: the request picked does not minimise the
    absolute seek distance. *)
Lemma C2_counterexample :
  elevator_run_check 4 seek_calls seek_fresh = Some seek_final ∧
  list_entries 4 gd_higher seek_final = Some [1%N] ∧
  list_entries 4 gd_lower seek_final = Some [3%N] ∧
  list_empty gd_higher seek_final = false ∧
  list_empty gd_lower seek_final = false ∧
  prev_pos (elevator_data seek_final) = 21%Z ∧
  blk_rq_pos seek_final 1%N = 10%Z ∧
  blk_rq_pos seek_final 3%N = 19%Z ∧
  fst <$> dispatch_request 0 seek_final = Some (Some 1%N) ∧
  ¬ nearest_head seek_final 1%N.
Proof.
  assert (Epp : prev_pos (elevator_data seek_final) = 21%Z) by (by vm_compute).
  assert (E1 : blk_rq_pos seek_final 1%N = 10%Z) by (by vm_compute).
  assert (E3 : blk_rq_pos seek_final 3%N = 19%Z) by (by vm_compute).
  split_and!; try (by vm_compute).
  intros H.
  specialize (H gd_lower 3%N (or_intror eq_refl) ltac:(by vm_compute)).
  rewrite Epp, E1, E3 in H. lia.
Qed.

(** C2 (amended).  When both queues are non-empty and both heads are
    less than 2^31 sectors away from the last position, the dispatch
    compares the signed differences [up_distance], start of the head of
    Higher minus the last position, and [down_distance], the last position
    minus the start of the head of Lower: it hands over the head of Lower
    if [up_distance > down_distance] and the head of Higher otherwise
    (equal distances included).  When the head of Lower is at or below the
    last position and the head of Higher at or above it, the request
    handed over is the nearest head. *)
Theorem C2_dispatch_selection force m t l :
  list_empty gd_higher m = false → list_empty gd_lower m = false →
  list_first_entry gd_higher m = Some t →
  list_first_entry gd_lower m = Some l →
  let pp := prev_pos (elevator_data m) in
  let up_distance := (blk_rq_pos m t - pp)%Z in
  let down_distance := (pp - blk_rq_pos m l)%Z in
  (- 2 ^ 31 ≤ up_distance < 2 ^ 31)%Z →
  (- 2 ^ 31 ≤ down_distance < 2 ^ 31)%Z →
  let chosen := if (up_distance >? down_distance)%Z then l else t in
  dispatch_request force m = Some (Some chosen, dispatch_effect chosen m) ∧
  ((blk_rq_pos m l ≤ pp ≤ blk_rq_pos m t)%Z → nearest_head m chosen).
Proof.
  intros Eh El Fh Fl pp up_distance down_distance Hup Hdown chosen. split.
  - rewrite (dispatch_request_both force m t l) by done.
    fold pp. fold up_distance. fold down_distance.
    rewrite !to_int_id by done.
    subst chosen. by destruct (up_distance >? down_distance)%Z.
  - intros Hpp h r Hh Hr. fold pp.
    assert (r = t ∨ r = l) as Hrtl.
    { destruct Hh as [-> | ->]; rewrite Hr in *; [left|right]; congruence. }
    subst chosen.
    destruct (Z.gtb_spec up_distance down_distance);
      destruct Hrtl as [-> | ->]; lia.
Qed.

Lemma C2_dispatch_selection_witness :
  dispatch_request 0 scenario_B_queued
  = Some (Some 2%N, dispatch_effect 2%N scenario_B_queued) ∧
  nearest_head scenario_B_queued 2%N.
Proof.
  pose proof (C2_dispatch_selection 0 scenario_B_queued 2%N 1%N
                ltac:(by vm_compute) ltac:(by vm_compute)
                ltac:(by vm_compute) ltac:(by vm_compute)
                ltac:(by vm_compute) ltac:(by vm_compute)) as H.
  cbv zeta in H. destruct H as [H1 H2].
  match type of H1 with
  | _ = Some (Some ?c, _) =>
      assert (E : c = 2%N) by (by vm_compute); rewrite E in H1, H2
  end.
  split; [exact H1|]. apply H2. by vm_compute.
Defined.

(** ** The last position *)

Lemma greedy_add_request_same_sectors fuel rq m m' :
  greedy_add_request fuel rq m = Some m' → same_sectors m m'.
Proof.
  unfold greedy_add_request, add_to_lower, add_to_higher.
  destruct (_ >? _)%Z;
    destruct (list_for_each_break _ _ _ _ _) as [pos|]; simpl; try done;
    intros [= <-]; apply same_sectors___list_add.
Qed.

(** C5.  The last position changes in [greedy_dispatch] only.  After a
    dispatch that hands over a request, it is the end sector of that
    request, start sector plus length in sector arithmetic, which is the
    plain sum whenever the sum is a sector number; a dispatch that hands
    over nothing, every add and every merge leave it as it was. *)
Theorem C5_last_position :
  (∀ force m ret m',
     greedy_dispatch force m = Some (ret, m') →
     (ret = 0%Z ∧ m' = m) ∨
     (ret = 1%Z ∧ ∃ t,
        dispatched m' = Some t ∧
        prev_pos (elevator_data m') = rq_end_sector m' t ∧
        ((0 ≤ blk_rq_pos m' t + blk_rq_sectors m' t < 2 ^ sector_bits)%Z →
         prev_pos (elevator_data m')
         = (blk_rq_pos m' t + blk_rq_sectors m' t)%Z))) ∧
  (∀ fuel rq m m',
     greedy_add_request fuel rq m = Some m' →
     prev_pos (elevator_data m') = prev_pos (elevator_data m)) ∧
  (∀ rq nxt m,
     prev_pos (elevator_data (greedy_merged_requests rq nxt m))
     = prev_pos (elevator_data m)).
Proof.
  split_and!.
  - intros force m ret m'. unfold greedy_dispatch.
    destruct (greedy_dispatch_target m) as [[t|]|]; simpl; [| |done].
    + fold (dispatch_effect t m). intros [= <- <-]. right.
      split; [done|]. exists t. split_and!.
      * apply dispatched_dispatch_effect.
      * apply prev_pos_dispatch_effect.
      * intros Hfit. rewrite prev_pos_dispatch_effect.
        unfold rq_end_sector, to_sector. by apply Z.mod_small.
    + intros [= <- <-]. by left.
  - intros fuel rq m m' H.
    by destruct (greedy_add_request_same_sectors _ _ _ _ H) as (? & _).
  - intros rq nxt m.
    by destruct (same_sectors_list_del_init (rq_queuelist nxt) m) as (? & _).
Qed.

Lemma C5_last_position_witness :
  greedy_dispatch 0 scenario_A_one
  = Some (1%Z, dispatch_effect 1%N scenario_A_one) ∧
  prev_pos (elevator_data (dispatch_effect 1%N scenario_A_one)) = 101%Z ∧
  prev_pos (elevator_data scenario_A_one)
  = prev_pos (elevator_data scenario_A).
Proof.
  destruct C5_last_position as (Hd & Ha & _).
  assert (H1 : greedy_dispatch 0 scenario_A_one
               = Some (1%Z, dispatch_effect 1%N scenario_A_one))
    by (by vm_compute).
  assert (H2 : greedy_add_request 4 1%N scenario_A = Some scenario_A_one)
    by (by vm_compute).
  split_and!; [exact H1| |exact (Ha _ _ _ _ H2)].
  destruct (Hd _ _ _ _ H1) as [[H0 _]|(_ & t & Ht & Hp & _)];
    [discriminate H0|].
  etrans; [exact Hp|].
  etrans; [exact (f_equal (rq_end_sector _)
                    (Some_inj _ _ (eq_trans (eq_sym Ht)
                       (dispatched_dispatch_effect 1%N scenario_A_one))))|].
  by vm_compute.
Defined.

(** ** Teardown *)

(** C8.  [greedy_exit_queue] frees the scheduler data when both queues are
    empty and stops in [BUG] when the Higher queue, the Lower queue or
    both hold a request. *)
Theorem C8_exit_queue m hi lo out :
  wf m hi lo out →
  greedy_exit_queue m = (if decide (hi = [] ∧ lo = []) then Freed else BUG).
Proof.
  intros (_ & Lhi & Llo & _).
  destruct (list_empty_is_list m gd_higher hi) as [Eh _]; [done..|].
  destruct (list_empty_is_list m gd_lower lo) as [El _]; [done..|].
  unfold greedy_exit_queue. rewrite Eh, El.
  destruct hi, lo; simpl; try done; by rewrite decide_False by (intros [? ?]; done).
Qed.

Lemma C8_exit_queue_witness :
  greedy_exit_queue scenario_A = Freed ∧
  greedy_exit_queue scenario_A_one = BUG.
Proof.
  assert (H0 : wf scenario_A [] [] [])
    by (compute_done).
  assert (H1 : wf scenario_A_one [1%N] [] [])
    by (compute_done).
  split.
  - exact (C8_exit_queue scenario_A [] [] [] H0).
  - exact (C8_exit_queue scenario_A_one [1%N] [] [] H1).
Defined.

(** ** The force flag *)

(** C9.  [greedy_dispatch] never reads [force]: two calls that differ in
    the flag only give the same return value and the same state, and with
    both queues empty the call returns 0 and leaves the state as it is. *)
Theorem C9_force_ignored force1 force2 m :
  greedy_dispatch force1 m = greedy_dispatch force2 m ∧
  (list_empty gd_higher m = true → list_empty gd_lower m = true →
   greedy_dispatch force1 m = Some (0%Z, m)).
Proof.
  split; [done|]. intros Eh El.
  unfold greedy_dispatch, greedy_dispatch_target. by rewrite Eh, El.
Qed.

Lemma C9_force_ignored_witness :
  greedy_dispatch 1 scenario_A = greedy_dispatch 0 scenario_A ∧
  greedy_dispatch 1 scenario_A = Some (0%Z, scenario_A).
Proof.
  destruct (C9_force_ignored 1 0 scenario_A) as [H1 H2].
  split; [exact H1|]. apply H2; by vm_compute.
Defined.

(** ** Neighbours *)

Lemma chain_next_head m a l z :
  chain m a l z → next (load m a) = default z (head l).
Proof. destruct l; simpl; [by intros [? _]|by intros [[? _] _]]. Qed.

Lemma chain_prev_last m a l z :
  chain m a l z → prev (load m z) = default a (last l).
Proof.
  destruct (decide (l = [])) as [->|Hne]; simpl; [by intros [_ ?]|].
  destruct (exists_last Hne) as (l' & c & ->).
  rewrite chain_snoc, last_snoc. by intros [_ [_ ?]].
Qed.

Lemma greedy_former_latter_wf m hi lo out rq l1 l2 :
  wf m hi lo out →
  hi = l1 ++ rq :: l2 ∨ lo = l1 ++ rq :: l2 →
  greedy_former_request rq m = Some (last l1, m) ∧
  greedy_latter_request rq m = Some (head l2, m).
Proof.
  intros (_ & Lhi & Llo & _) Hq.
  assert (∃ h, (h = gd_higher ∨ h = gd_lower) ∧
               is_list m h (l1 ++ rq :: l2)) as (h & Hh & Hl).
  { destruct Hq as [<-| <-]; eauto. }
  unfold is_list in Hl. rewrite fmap_app, fmap_cons in Hl.
  apply chain_app in Hl as [Hc1 Hc2].
  apply chain_prev_last in Hc1. apply chain_next_head in Hc2.
  rewrite fmap_last in Hc1.
  replace (head (rq_queuelist <$> l2)) with (rq_queuelist <$> head l2)
    in Hc2 by (by destruct l2).
  unfold greedy_former_request, greedy_latter_request.
  rewrite Hc1, Hc2. split.
  - destruct (last l1) as [c|]; simpl; [done|].
    by rewrite decide_True by done.
  - destruct (head l2) as [c|]; simpl; [done|].
    by rewrite decide_True by done.
Qed.

(** C10.  For a request held in the Higher or in the Lower queue,
    [greedy_former_request] returns the entry before it and
    [greedy_latter_request] the entry after it, [NULL] at the front and at
    the back of the queue; both leave the state, the queues and the last
    position in it, as it is. *)
Theorem C10_former_latter m hi lo out rq l1 l2 :
  wf m hi lo out →
  hi = l1 ++ rq :: l2 ∨ lo = l1 ++ rq :: l2 →
  greedy_former_request rq m = Some (last l1, m) ∧
  greedy_latter_request rq m = Some (head l2, m).
Proof. apply greedy_former_latter_wf. Qed.

Lemma C10_former_latter_witness :
  greedy_former_request 4%N scenario_A_queued
  = Some (last [3%N], scenario_A_queued) ∧
  greedy_latter_request 4%N scenario_A_queued
  = Some (head [1%N; 2%N], scenario_A_queued).
Proof.
  apply (C10_former_latter scenario_A_queued [3; 4; 1; 2]%N [] []).
  - compute_done.
  - by left.
Defined.

(** ** Calls on well-formed states *)

(** The lists of a well-formed state are determined by the state. *)
Lemma is_list_unique m h l l' :
  is_head h → is_list m h l → is_list m h l' → l = l'.
Proof.
  intros Hh H1 H2.
  pose proof (list_entries_is_list m h (length l `max` length l') l
                Hh H1 ltac:(lia)) as E.
  pose proof (list_entries_is_list m h (length l `max` length l') l'
                Hh H2 ltac:(lia)) as E'.
  congruence.
Qed.

Lemma wf_unique m hi lo out hi' lo' out' :
  wf m hi lo out → wf m hi' lo' out' → hi = hi' ∧ lo = lo' ∧ out = out'.
Proof.
  intros (_ & H1 & H2 & H3) (_ & H1' & H2' & H3').
  split_and!.
  - by apply (is_list_unique m gd_higher).
  - by apply (is_list_unique m gd_lower).
  - by apply (is_list_unique m q_queue_head).
Qed.

Lemma dispatch_request_wf force m hi lo out :
  wf m hi lo out →
  dispatch_request force m =
    Some (match select_head m hi lo with
          | None => (None, m)
          | Some t => (Some t, dispatch_effect t m)
          end).
Proof.
  intros Hwf. rewrite dispatch_request_target.
  rewrite (greedy_dispatch_target_wf m hi lo out) by done.
  by destruct (select_head m hi lo).
Qed.

Lemma elem_of_queue_add stop x l r :
  r ∈ queue_add stop x l ↔ r = x ∨ r ∈ l.
Proof. by rewrite queue_add_perm, elem_of_cons. Qed.

Lemma elem_of_list_del_entries x l r :
  r ∈ list_del_entries x l ↔ r ≠ x ∧ r ∈ l.
Proof. unfold list_del_entries. by rewrite list_elem_of_filter. Qed.

(** One call: the state stays well-formed, the sectors of the requests
    stay, and the only request that enters a queue is the one being added,
    which goes to Lower if its start sector is below the last position and
    to Higher otherwise. *)
Lemma elevator_greedy_step fuel c m hi lo out :
  wf m hi lo out → call_ok c hi lo out →
  length hi ≤ fuel → length lo ≤ fuel →
  ∃ m' hi' lo' out',
    elevator_greedy fuel c m = Some m' ∧ wf m' hi' lo' out' ∧
    (∀ r, blk_rq_pos m' r = blk_rq_pos m r) ∧
    (∀ r, r ∈ hi' →
       r ∈ hi ∨ (c = elevator_add_req_fn r ∧
                 (prev_pos (elevator_data m) ≤ blk_rq_pos m r)%Z)) ∧
    (∀ r, r ∈ lo' →
       r ∈ lo ∨ (c = elevator_add_req_fn r ∧
                 (blk_rq_pos m r < prev_pos (elevator_data m))%Z)) ∧
    (∀ r, c = elevator_add_req_fn r → r ∈ hi' ++ lo') ∧
    (∀ r, r ∈ hi ++ lo →
       r ∈ hi' ++ lo' ∨ r ∈ out' ∨ ∃ rq, c = elevator_merge_req_fn rq r).
Proof.
  intros Hwf Hok Hlh Hll. destruct c as [rq|force|rq nxt|rq|rq]; simpl in *.
  - unfold greedy_add_request.
    destruct (Z.gtb_spec (prev_pos (elevator_data m)) (blk_rq_pos m rq)).
    + destruct (add_to_lower_wf m hi lo out fuel rq)
        as (m' & -> & (_ & Hs & _) & Hwf'); [done..|].
      eexists m', hi, _, out. split_and!; try done.
      * by left.
      * intros r [->|Hr]%elem_of_queue_add; [right|left]; done.
      * intros r [= <-]. apply elem_of_app. right.
        apply elem_of_queue_add. by left.
      * intros r Hr. left. rewrite elem_of_app, elem_of_queue_add.
        apply elem_of_app in Hr. tauto.
    + destruct (add_to_higher_wf m hi lo out fuel rq)
        as (m' & -> & (_ & Hs & _) & Hwf'); [done..|].
      eexists m', _, lo, out. split_and!; try done.
      * intros r [->|Hr]%elem_of_queue_add; [right|left]; done.
      * by left.
      * intros r [= <-]. apply elem_of_app. left.
        apply elem_of_queue_add. by left.
      * intros r Hr. left. rewrite elem_of_app, elem_of_queue_add.
        apply elem_of_app in Hr. tauto.
  - rewrite (greedy_dispatch_wf force m hi lo out) by done. simpl.
    destruct (select_head m hi lo) as [t|] eqn:Hsel; simpl.
    + apply select_head_in in Hsel as [_ Ht].
      destruct (dispatch_effect_wf m hi lo out t Hwf Ht)
        as (Hwf' & _ & Hs & _).
      eexists _, _, _, _. split_and!; try done.
      * intros r [_ Hr]%elem_of_list_del_entries. by left.
      * intros r [_ Hr]%elem_of_list_del_entries. by left.
      * intros r Hr. destruct (decide (r = t)) as [->|Hne].
        -- right. left. set_solver.
        -- left. rewrite elem_of_app, !elem_of_list_del_entries.
           apply elem_of_app in Hr. tauto.
    + eexists m, hi, lo, out. split_and!; try done; auto.
  - destruct (greedy_merged_requests_wf m hi lo out rq nxt Hwf Hok)
      as (Hwf' & _ & Hs & _).
    eexists _, _, _, _. split_and!; try done.
    + intros r [_ Hr]%elem_of_list_del_entries. by left.
    + intros r [_ Hr]%elem_of_list_del_entries. by left.
    + intros r Hr. destruct (decide (r = nxt)) as [->|Hne].
      * right. right. by exists rq.
      * left. rewrite elem_of_app, !elem_of_list_del_entries.
        apply elem_of_app in Hr. tauto.
  - apply elem_of_app in Hok as [Hin|Hin];
      apply list_elem_of_split in Hin as (l1 & l2 & ->).
    + destruct (greedy_former_latter_wf m _ lo out rq l1 l2 Hwf
                  (or_introl eq_refl)) as [-> _].
      eexists m, _, lo, out. split_and!; try done; auto.
    + destruct (greedy_former_latter_wf m hi _ out rq l1 l2 Hwf
                  (or_intror eq_refl)) as [-> _].
      eexists m, hi, _, out. split_and!; try done; auto.
  - apply elem_of_app in Hok as [Hin|Hin];
      apply list_elem_of_split in Hin as (l1 & l2 & ->).
    + destruct (greedy_former_latter_wf m _ lo out rq l1 l2 Hwf
                  (or_introl eq_refl)) as [_ ->].
      eexists m, _, lo, out. split_and!; try done; auto.
    + destruct (greedy_former_latter_wf m hi _ out rq l1 l2 Hwf
                  (or_intror eq_refl)) as [_ ->].
      eexists m, hi, _, out. split_and!; try done; auto.
Qed.

Lemma elevator_run_check_sound fuel cs : ∀ m m2,
  elevator_run_check fuel cs m = Some m2 → elevator_run fuel m cs m2.
Proof.
  induction cs as [|c cs IH]; simpl; intros m m2.
  - intros [= <-]. apply run_nil.
  - destruct (list_entries fuel gd_higher m) as [hi|]; [|done].
    destruct (list_entries fuel gd_lower m) as [lo|]; [|done].
    destruct (list_entries fuel q_queue_head m) as [out|]; [|done].
    case_decide as Hok; [|done]. destruct Hok as (Hwf & Hok & Hlh & Hll).
    destruct (elevator_greedy fuel c m) as [m1|] eqn:Hc; [|done]. simpl.
    intros Hrest. eapply run_cons; eauto.
Qed.

(** A request that is not in the Higher (Lower) queue is not there after
    any further calls either, unless one of them adds it. *)
Lemma elevator_run_not_in fuel rq cs : ∀ m m2 hi lo out,
  elevator_run fuel m cs m2 → elevator_add_req_fn rq ∉ cs →
  wf m hi lo out →
  ∃ hi2 lo2 out2, wf m2 hi2 lo2 out2 ∧
    (rq ∉ hi → rq ∉ hi2) ∧ (rq ∉ lo → rq ∉ lo2).
Proof.
  induction cs as [|c cs IH]; intros m m2 hi lo out Hrun Hcs Hwf.
  - inversion Hrun; subst. by exists hi, lo, out.
  - inversion Hrun as [|? ? ? m1 ? hi0 lo0 out0 Hwf0 Hok Hlh Hll Hc Hrest];
      subst.
    destruct (wf_unique _ _ _ _ _ _ _ Hwf Hwf0) as (<- & <- & <-).
    apply not_elem_of_cons in Hcs as [Hne Hcs].
    destruct (elevator_greedy_step fuel c m hi lo out)
      as (m1' & hi1 & lo1 & out1 & Hc' & Hwf1 & _ & Hhi & Hlo & _);
      [done..|].
    rewrite Hc in Hc'. injection Hc' as <-.
    destruct (IH m1 m2 hi1 lo1 out1 Hrest Hcs Hwf1)
      as (hi2 & lo2 & out2 & Hwf2 & Hhi2 & Hlo2).
    exists hi2, lo2, out2. split_and!; [done| |].
    + intros Hn. apply Hhi2. intros Hin.
      apply Hhi in Hin as [?|[-> _]]; done.
    + intros Hn. apply Hlo2. intros Hin.
      apply Hlo in Hin as [?|[-> _]]; done.
Qed.

(** C4.  A request added to a well-formed state, within the iteration
    bound, IS put into a queue: into the Lower queue if its start sector
    is below the last position of that moment, into the Higher queue
    otherwise (equality included), and into that queue only.  Whatever
    calls follow, and however they move the last position, the request
    never shows up in the other queue; and every call made under the
    contract succeeds and brings no request into a queue that did not hold
    it, other than the request being added. *)
Theorem C4_queue_membership fuel m hi lo out rq :
  wf m hi lo out → rq ∉ hi ++ lo ++ out →
  length hi ≤ fuel → length lo ≤ fuel →
  ∃ m1 hi1 lo1,
    greedy_add_request fuel rq m = Some m1 ∧ wf m1 hi1 lo1 out ∧
    (if (blk_rq_pos m rq <? prev_pos (elevator_data m))%Z
     then rq ∈ lo1 ∧ (rq ∉ hi1) ∧ hi1 = hi
     else rq ∈ hi1 ∧ (rq ∉ lo1) ∧ lo1 = lo) ∧
    (∀ cs m2,
       elevator_run fuel m1 cs m2 → elevator_add_req_fn rq ∉ cs →
       ∃ hi2 lo2 out2, wf m2 hi2 lo2 out2 ∧
         if (blk_rq_pos m rq <? prev_pos (elevator_data m))%Z
         then rq ∉ hi2 else rq ∉ lo2) ∧
    (∀ c m' hi' lo' out',
       wf m' hi' lo' out' → call_ok c hi' lo' out' →
       length hi' ≤ fuel → length lo' ≤ fuel →
       ∃ m'' hi'' lo'' out'',
         elevator_greedy fuel c m' = Some m'' ∧ wf m'' hi'' lo'' out'' ∧
         ∀ r, c ≠ elevator_add_req_fn r →
              (r ∉ hi' → r ∉ hi'') ∧ (r ∉ lo' → r ∉ lo'')).
Proof.
  intros Hwf Hok Hlh Hll.
  assert (Hrq : (rq ∉ hi) ∧ (rq ∉ lo)) by set_solver. destruct Hrq as [Hrh Hrl].
  assert (Hstep : ∀ c m' hi' lo' out',
       wf m' hi' lo' out' → call_ok c hi' lo' out' →
       length hi' ≤ fuel → length lo' ≤ fuel →
       ∃ m'' hi'' lo'' out'',
         elevator_greedy fuel c m' = Some m'' ∧ wf m'' hi'' lo'' out'' ∧
         ∀ r, c ≠ elevator_add_req_fn r →
              (r ∉ hi' → r ∉ hi'') ∧ (r ∉ lo' → r ∉ lo'')).
  { intros c m' hi' lo' out' Hwf' Hok' Hlh' Hll'.
    destruct (elevator_greedy_step fuel c m' hi' lo' out')
      as (m'' & hi'' & lo'' & out'' & Hc & Hwf'' & _ & Hhi & Hlo & _);
      [done..|].
    exists m'', hi'', lo'', out''. split_and!; [done|done|].
    intros r Hne. split; intros Hn Hin.
    - apply Hhi in Hin as [?|[-> _]]; done.
    - apply Hlo in Hin as [?|[-> _]]; done. }
  unfold greedy_add_request.
  destruct (Z.gtb_spec (prev_pos (elevator_data m)) (blk_rq_pos m rq))
    as [Hlt|Hge].
  - destruct (add_to_lower_wf m hi lo out fuel rq)
      as (m1 & E & _ & Hwf1); [done..|].
    destruct (Z.ltb_spec (blk_rq_pos m rq) (prev_pos (elevator_data m)));
      [|lia].
    eexists m1, hi, _.
    split; [done|]. split; [exact Hwf1|]. split; [|split; [|exact Hstep]].
    + split_and!; [|done|done]. apply elem_of_queue_add. by left.
    + intros cs m2 Hrun Hcs.
      destruct (elevator_run_not_in fuel rq cs _ _ _ _ _ Hrun Hcs Hwf1)
        as (hi2 & lo2 & out2 & Hwf2 & Hhi2 & _).
      exists hi2, lo2, out2. split; [done|]. by apply Hhi2.
  - destruct (add_to_higher_wf m hi lo out fuel rq)
      as (m1 & E & _ & Hwf1); [done..|].
    destruct (Z.ltb_spec (blk_rq_pos m rq) (prev_pos (elevator_data m)));
      [lia|].
    eexists m1, _, lo.
    split; [done|]. split; [exact Hwf1|]. split; [|split; [|exact Hstep]].
    + split_and!; [|done|done]. apply elem_of_queue_add. by left.
    + intros cs m2 Hrun Hcs.
      destruct (elevator_run_not_in fuel rq cs _ _ _ _ _ Hrun Hcs Hwf1)
        as (hi2 & lo2 & out2 & Hwf2 & _ & Hlo2).
      exists hi2, lo2, out2. split; [done|]. by apply Hlo2.
Qed.

Lemma C4_queue_membership_witness :
  ∃ m1 hi1 lo1 hi2 lo2 out2,
    greedy_add_request 4 1%N seek_fresh = Some m1 ∧
    wf m1 hi1 lo1 [] ∧
    1%N ∈ hi1 ∧ (1%N ∉ lo1) ∧ lo1 = [] ∧
    elevator_run 4 m1
      [elevator_add_req_fn 2%N; elevator_dispatch_fn 0;
       elevator_add_req_fn 3%N] seek_final ∧
    wf seek_final hi2 lo2 out2 ∧ (1%N ∉ lo2) ∧
    (blk_rq_pos seek_final 1%N < prev_pos (elevator_data seek_final))%Z.
Proof.
  destruct (C4_queue_membership 4 seek_fresh [] [] [] 1%N)
    as (m1 & hi1 & lo1 & E1 & W1 & Hif & Hlater & _);
    [compute_done|compute_done|simpl; lia|simpl; lia|].
  assert (Ec : (blk_rq_pos seek_fresh 1%N
                <? prev_pos (elevator_data seek_fresh))%Z = false)
    by (by vm_compute).
  rewrite Ec in Hif. destruct Hif as (Hin & Hnot & Hlo).
  assert (Hm : m1 = default seek_fresh (greedy_add_request 4 1%N seek_fresh))
    by (by rewrite E1).
  assert (Hrun : elevator_run 4 m1
      [elevator_add_req_fn 2%N; elevator_dispatch_fn 0;
       elevator_add_req_fn 3%N] seek_final).
  { rewrite Hm. apply elevator_run_check_sound. by vm_compute. }
  destruct (Hlater _ _ Hrun ltac:(compute_done))
    as (hi2 & lo2 & out2 & W2 & Hif2).
  rewrite Ec in Hif2.
  exists m1, hi1, lo1, hi2, lo2, out2.
  split_and!; try done; by vm_compute.
Defined.

(** ** Scenarios *)

Lemma list_del_entries_head x l :
  NoDup (x :: l) → list_del_entries x (x :: l) = l.
Proof. apply (list_del_entries_split x []). Qed.

(** C6.  Scenario B: with the last position at 50 and both queues empty,
    a request at sector 10 goes to the Lower queue and a request at sector
    80 to the Higher queue; the first dispatch hands over the request at
    80 (30 > 40 is false), the second the request at 10. *)
Theorem C6_scenario_B fuel force1 force2 m out a b :
  wf m [] [] out → prev_pos (elevator_data m) = 50%Z →
  blk_rq_pos m a = 10%Z → blk_rq_pos m b = 80%Z →
  a ∉ out → b ∉ out →
  ∃ m1 m2 m3 m4,
    greedy_add_request fuel a m = Some m1 ∧ wf m1 [] [a] out ∧
    greedy_add_request fuel b m1 = Some m2 ∧ wf m2 [b] [a] out ∧
    dispatch_request force1 m2 = Some (Some b, m3) ∧
    blk_rq_pos m3 b = 80%Z ∧
    dispatch_request force2 m3 = Some (Some a, m4) ∧
    blk_rq_pos m4 a = 10%Z ∧
    wf m4 [] [] (out ++ [b; a]).
Proof.
  intros Hwf Hpp Ha Hb Hao Hbo.
  assert (Hab : a ≠ b) by (intros ->; rewrite Ha in Hb; discriminate).
  destruct (add_to_lower_wf m [] [] out fuel a)
    as (m1 & E1 & (Hp1 & Hs1 & _) & Hwf1);
    [done|set_solver|simpl; lia|].
  change (wf m1 [] [a] out) in Hwf1.
  destruct (add_to_higher_wf m1 [] [a] out fuel b)
    as (m2 & E2 & (Hp2 & Hs2 & _) & Hwf2);
    [done|set_solver|simpl; lia|].
  change (wf m2 [b] [a] out) in Hwf2.
  assert (Hsel : select_head m2 [b] [a] = Some b).
  { unfold select_head. rewrite !Hs2, !Hs1, Hp2, Hp1, Hpp, Ha, Hb. done. }
  destruct (dispatch_effect_wf m2 [b] [a] out b Hwf2)
    as (Hwf3 & _ & Hs3 & _); [set_solver|].
  rewrite list_del_entries_head in Hwf3 by apply NoDup_singleton.
  rewrite list_del_entries_notin in Hwf3 by set_solver.
  destruct (dispatch_effect_wf _ [] [a] (out ++ [b]) a Hwf3)
    as (Hwf4 & _ & Hs4 & _); [set_solver|].
  rewrite list_del_entries_head in Hwf4 by apply NoDup_singleton.
  rewrite <- app_assoc in Hwf4.
  eexists m1, m2, _, _. split_and!.
  - unfold greedy_add_request. by rewrite Hpp, Ha.
  - done.
  - unfold greedy_add_request. by rewrite Hp1, Hpp, Hs1, Hb.
  - done.
  - by rewrite (dispatch_request_wf force1 m2 [b] [a] out), Hsel.
  - by rewrite Hs3, Hs2, Hs1.
  - by rewrite (dispatch_request_wf force2 _ [] [a] (out ++ [b])).
  - by rewrite Hs4, Hs3, Hs2, Hs1.
  - done.
Qed.

Lemma C6_scenario_B_witness :
  ∃ m1 m2 m3 m4,
    greedy_add_request 4 1%N scenario_B_start = Some m1 ∧
    wf m1 [] [1%N] [3%N] ∧
    greedy_add_request 4 2%N m1 = Some m2 ∧ wf m2 [2%N] [1%N] [3%N] ∧
    dispatch_request 0 m2 = Some (Some 2%N, m3) ∧
    blk_rq_pos m3 2%N = 80%Z ∧
    dispatch_request 0 m3 = Some (Some 1%N, m4) ∧
    blk_rq_pos m4 1%N = 10%Z ∧
    wf m4 [] [] ([3%N] ++ [2%N; 1%N]).
Proof.
  apply (C6_scenario_B 4 0 0 scenario_B_start [3%N] 1%N 2%N).
  - compute_done.
  - by vm_compute.
  - by vm_compute.
  - by vm_compute.
  - compute_done.
  - compute_done.
Defined.

(** C7.  Scenario C: on a freshly created scheduler, add A and then B,
    both at sector 10; merge B away; the next dispatch hands over A, and
    one more dispatch returns 0 with nothing handed over. *)
Theorem C7_scenario_C fuel force1 force2 m0 out a b :
  NoDup out → is_list m0 q_queue_head out →
  blk_rq_pos m0 a = 10%Z → blk_rq_pos m0 b = 10%Z →
  a ≠ b → a ∉ out → b ∉ out → 1 ≤ fuel →
  ∃ m1 m2 m4,
    greedy_add_request fuel a (snd (greedy_init_queue true true m0))
      = Some m1 ∧
    greedy_add_request fuel b m1 = Some m2 ∧
    wf m2 [b; a] [] out ∧
    wf (greedy_merged_requests a b m2) [a] [] out ∧
    dispatch_request force1 (greedy_merged_requests a b m2)
      = Some (Some a, m4) ∧
    wf m4 [] [] (out ++ [a]) ∧
    greedy_dispatch force2 m4 = Some (0%Z, m4) ∧
    dispatch_request force2 m4 = Some (None, m4).
Proof.
  intros Hnd Hl Ha Hb Hab Hao Hbo Hfuel.
  destruct (greedy_init_queue_wf m0 out Hnd Hl) as (_ & Hwf & Hpp & Hs0 & _).
  set (m := snd (greedy_init_queue true true m0)) in *.
  destruct (add_to_higher_wf m [] [] out fuel a)
    as (m1 & E1 & (Hp1 & Hs1 & _) & Hwf1);
    [done|set_solver|simpl; lia|].
  change (wf m1 [a] [] out) in Hwf1.
  destruct (add_to_higher_wf m1 [a] [] out fuel b)
    as (m2 & E2 & (Hp2 & Hs2 & _) & Hwf2);
    [done|set_solver|simpl; lia|].
  unfold queue_add in Hwf2. simpl in Hwf2.
  rewrite !Hs1, !Hs0, Ha, Hb in Hwf2. simpl in Hwf2.
  destruct (greedy_merged_requests_wf m2 [b; a] [] out a b Hwf2)
    as (Hwf3 & _); [set_solver|].
  rewrite list_del_entries_head in Hwf3
    by (apply NoDup_cons; split; [set_solver|apply NoDup_singleton]).
  change (list_del_entries b []) with (@nil rq_ptr) in Hwf3.
  set (m3 := greedy_merged_requests a b m2) in *.
  destruct (dispatch_effect_wf m3 [a] [] out a Hwf3)
    as (Hwf4 & _); [set_solver|].
  rewrite list_del_entries_head in Hwf4 by apply NoDup_singleton.
  change (list_del_entries a []) with (@nil rq_ptr) in Hwf4.
  eexists m1, m2, _. split_and!.
  - unfold greedy_add_request. by rewrite Hpp, Hs0, Ha.
  - unfold greedy_add_request. by rewrite Hp1, Hpp, Hs1, Hs0, Hb.
  - done.
  - done.
  - subst m3.
    by rewrite (dispatch_request_wf force1 _ [a] [] out).
  - done.
  - by rewrite (greedy_dispatch_wf force2 _ [] [] (out ++ [a])).
  - by rewrite (dispatch_request_wf force2 _ [] [] (out ++ [a])).
Qed.

Lemma C7_scenario_C_witness :
  ∃ m1 m2 m4,
    greedy_add_request 4 1%N scenario_C = Some m1 ∧
    greedy_add_request 4 2%N m1 = Some m2 ∧
    wf m2 [2%N; 1%N] [] [] ∧
    wf (greedy_merged_requests 1%N 2%N m2) [1%N] [] [] ∧
    dispatch_request 0 (greedy_merged_requests 1%N 2%N m2)
      = Some (Some 1%N, m4) ∧
    wf m4 [] [] ([] ++ [1%N]) ∧
    greedy_dispatch 0 m4 = Some (0%Z, m4) ∧
    dispatch_request 0 m4 = Some (None, m4).
Proof.
  apply (C7_scenario_C 4 0 0 (boot_mem (λ _, 10%Z) 1) [] 1%N 2%N).
  - apply NoDup_nil_2.
  - compute_done.
  - by vm_compute.
  - by vm_compute.
  - discriminate.
  - compute_done.
  - compute_done.
  - lia.
Defined.

(** * Further properties of the code *)

(** ** Where an added request lands *)

Lemma add_after_first_Some stop x l l' :
  add_after_first stop x l = Some l' →
  ∃ l1 c l2, l = l1 ++ c :: l2 ∧ (∀ r, r ∈ l1 → stop r = false) ∧
             stop c = true ∧ l' = l1 ++ c :: x :: l2.
Proof.
  revert l'. induction l as [|r l IH]; simpl; intros l'; [done|].
  destruct (stop r) eqn:Hs.
  - intros [= <-]. exists [], r, l. split_and!; try done. set_solver.
  - destruct (add_after_first stop x l) as [l''|]; simpl; [|done].
    intros [= <-]. destruct (IH l'' eq_refl) as (l1 & c & l2 & -> & H1 & Hc & ->).
    exists (r :: l1), c, l2. split_and!; try done.
    intros r' [->|Hr]%elem_of_cons; auto.
Qed.

Lemma add_after_first_None stop x l :
  add_after_first stop x l = None → ∀ r, r ∈ l → stop r = false.
Proof.
  induction l as [|r l IH]; simpl; [set_solver|].
  destruct (stop r) eqn:Hs; [done|].
  destruct (add_after_first stop x l); simpl; [done|].
  intros _ r' [->|Hr]%elem_of_cons; auto.
Qed.

(** The two shapes of [queue_add]. *)
Lemma queue_add_shape stop x l :
  (∃ l1 c l2, l = l1 ++ c :: l2 ∧ (∀ r, r ∈ l1 → stop r = false) ∧
              stop c = true ∧ queue_add stop x l = l1 ++ c :: x :: l2) ∨
  ((∀ r, r ∈ l → stop r = false) ∧ queue_add stop x l = x :: l).
Proof.
  unfold queue_add. destruct (add_after_first stop x l) as [l'|] eqn:He.
  - left. destruct (add_after_first_Some _ _ _ _ He)
      as (l1 & c & l2 & -> & H1 & Hc & ->). by exists l1, c, l2.
  - right. split; [|done]. by apply add_after_first_None with x.
Qed.

(** X1.  [add_to_higher] puts the new request right AFTER the first entry
    of the Higher queue whose start sector is above its own, and at the
    FRONT of the queue when no entry is above it; the entries that were
    there keep their order, and the Lower queue, the dispatch list and the
    last position stay as they are. *)
Theorem X1_add_to_higher_position m hi lo out fuel rq :
  wf m hi lo out → rq ∉ hi ++ lo ++ out → length hi ≤ fuel →
  ∃ m' hi',
    add_to_higher fuel rq m = Some m' ∧ wf m' hi' lo out ∧
    prev_pos (elevator_data m') = prev_pos (elevator_data m) ∧
    ((∃ l1 c l2,
        hi = l1 ++ c :: l2 ∧
        (∀ r, r ∈ l1 → (blk_rq_pos m r ≤ blk_rq_pos m rq)%Z) ∧
        (blk_rq_pos m rq < blk_rq_pos m c)%Z ∧
        hi' = l1 ++ c :: rq :: l2) ∨
     ((∀ r, r ∈ hi → (blk_rq_pos m r ≤ blk_rq_pos m rq)%Z) ∧
      hi' = rq :: hi)).
Proof.
  intros Hwf Hrq Hlen.
  destruct (add_to_higher_wf m hi lo out fuel rq Hwf Hrq Hlen)
    as (m' & E & (Hp & _) & Hwf').
  eexists m', _. split_and!; [done|done|done|].
  destruct (queue_add_shape (λ r, (blk_rq_pos m r >? blk_rq_pos m rq)%Z)
              rq hi) as [(l1 & c & l2 & -> & H1 & Hc & ->)|[H1 ->]].
  - left. exists l1, c, l2. split_and!; try done.
    + intros r Hr. specialize (H1 r Hr). simpl in H1. lia.
    + simpl in Hc. lia.
  - right. split; [|done]. intros r Hr. specialize (H1 r Hr).
    simpl in H1. lia.
Qed.

Lemma X1_add_to_higher_position_witness :
  ∃ m' hi',
    add_to_higher 4 4%N scenario_A_one = Some m' ∧
    wf m' hi' [] [] ∧
    prev_pos (elevator_data m') = prev_pos (elevator_data scenario_A_one) ∧
    ((∃ l1 c l2,
        [1%N] = l1 ++ c :: l2 ∧
        (∀ r, r ∈ l1 →
           (blk_rq_pos scenario_A_one r ≤ blk_rq_pos scenario_A_one 4%N)%Z) ∧
        (blk_rq_pos scenario_A_one 4%N < blk_rq_pos scenario_A_one c)%Z ∧
        hi' = l1 ++ c :: 4%N :: l2) ∨
     ((∀ r, r ∈ [1%N] →
         (blk_rq_pos scenario_A_one r ≤ blk_rq_pos scenario_A_one 4%N)%Z) ∧
      hi' = 4%N :: [1%N])).
Proof.
  apply (X1_add_to_higher_position scenario_A_one [1%N] [] [] 4 4%N).
  - compute_done.
  - compute_done.
  - simpl. lia.
Defined.

(** X2.  [add_to_lower] puts the new request right AFTER the first entry
    of the Lower queue whose start sector is below its own, and at the
    FRONT of the queue when no entry is below it; the entries that were
    there keep their order, and the Higher queue, the dispatch list and
    the last position stay as they are. *)
Theorem X2_add_to_lower_position m hi lo out fuel rq :
  wf m hi lo out → rq ∉ hi ++ lo ++ out → length lo ≤ fuel →
  ∃ m' lo',
    add_to_lower fuel rq m = Some m' ∧ wf m' hi lo' out ∧
    prev_pos (elevator_data m') = prev_pos (elevator_data m) ∧
    ((∃ l1 c l2,
        lo = l1 ++ c :: l2 ∧
        (∀ r, r ∈ l1 → (blk_rq_pos m rq ≤ blk_rq_pos m r)%Z) ∧
        (blk_rq_pos m c < blk_rq_pos m rq)%Z ∧
        lo' = l1 ++ c :: rq :: l2) ∨
     ((∀ r, r ∈ lo → (blk_rq_pos m rq ≤ blk_rq_pos m r)%Z) ∧
      lo' = rq :: lo)).
Proof.
  intros Hwf Hrq Hlen.
  destruct (add_to_lower_wf m hi lo out fuel rq Hwf Hrq Hlen)
    as (m' & E & (Hp & _) & Hwf').
  eexists m', _. split_and!; [done|done|done|].
  destruct (queue_add_shape (λ r, (blk_rq_pos m r <? blk_rq_pos m rq)%Z)
              rq lo) as [(l1 & c & l2 & -> & H1 & Hc & ->)|[H1 ->]].
  - left. exists l1, c, l2. split_and!; try done.
    + intros r Hr. specialize (H1 r Hr). simpl in H1. lia.
    + simpl in Hc. lia.
  - right. split; [|done]. intros r Hr. specialize (H1 r Hr).
    simpl in H1. lia.
Qed.

Lemma X2_add_to_lower_position_witness :
  ∃ m' lo',
    add_to_lower 4 4%N seek_final = Some m' ∧
    wf m' [1%N] lo' [2%N] ∧
    prev_pos (elevator_data m') = prev_pos (elevator_data seek_final) ∧
    ((∃ l1 c l2,
        [3%N] = l1 ++ c :: l2 ∧
        (∀ r, r ∈ l1 →
           (blk_rq_pos seek_final 4%N ≤ blk_rq_pos seek_final r)%Z) ∧
        (blk_rq_pos seek_final c < blk_rq_pos seek_final 4%N)%Z ∧
        lo' = l1 ++ c :: 4%N :: l2) ∨
     ((∀ r, r ∈ [3%N] →
         (blk_rq_pos seek_final 4%N ≤ blk_rq_pos seek_final r)%Z) ∧
      lo' = 4%N :: [3%N])).
Proof.
  apply (X2_add_to_lower_position seek_final [1%N] [3%N] [2%N] 4 4%N).
  - compute_done.
  - compute_done.
  - simpl. lia.
Defined.

(** ** The head of a queue that only grows *)

Lemma head_app_cons {A} (l1 : list A) c l2 x :
  head (l1 ++ c :: x :: l2) = head (l1 ++ c :: l2).
Proof. by destruct l1. Qed.

Lemma add_to_higher_head_is_max m hi lo out fuel rq :
  wf m hi lo out → rq ∉ hi ++ lo ++ out → length hi ≤ fuel →
  head_is_max m hi →
  ∃ m' hi',
    add_to_higher fuel rq m = Some m' ∧ wf m' hi' lo out ∧
    same_sectors m m' ∧ hi' ≡ₚ rq :: hi ∧ head_is_max m' hi'.
Proof.
  intros Hwf Hrq Hlen Hmax.
  destruct (add_to_higher_wf m hi lo out fuel rq Hwf Hrq Hlen)
    as (m' & E & Hs & Hwf').
  eexists m', _. split_and!; [done|done|done|apply queue_add_perm|].
  destruct Hs as (_ & Hs & _). unfold head_is_max. setoid_rewrite Hs.
  destruct (queue_add_shape (λ r, (blk_rq_pos m r >? blk_rq_pos m rq)%Z)
              rq hi) as [(l1 & c & l2 & -> & H1 & Hc & ->)|[H1 ->]].
  - intros h r. rewrite head_app_cons. intros Hh Hr.
    assert (Hch : (blk_rq_pos m c ≤ blk_rq_pos m h)%Z).
    { apply Hmax; [done|]. set_solver. }
    simpl in Hc.
    assert (r = rq ∨ r ∈ l1 ++ c :: l2) as [->|Hin] by set_solver.
    + lia.
    + by apply Hmax.
  - simpl. intros h r [= <-] [->|Hr]%elem_of_cons; [lia|].
    specialize (H1 r Hr). simpl in H1. lia.
Qed.

Lemma add_to_lower_head_is_min m hi lo out fuel rq :
  wf m hi lo out → rq ∉ hi ++ lo ++ out → length lo ≤ fuel →
  head_is_min m lo →
  ∃ m' lo',
    add_to_lower fuel rq m = Some m' ∧ wf m' hi lo' out ∧
    same_sectors m m' ∧ lo' ≡ₚ rq :: lo ∧ head_is_min m' lo'.
Proof.
  intros Hwf Hrq Hlen Hmin.
  destruct (add_to_lower_wf m hi lo out fuel rq Hwf Hrq Hlen)
    as (m' & E & Hs & Hwf').
  eexists m', _. split_and!; [done|done|done|apply queue_add_perm|].
  destruct Hs as (_ & Hs & _). unfold head_is_min. setoid_rewrite Hs.
  destruct (queue_add_shape (λ r, (blk_rq_pos m r <? blk_rq_pos m rq)%Z)
              rq lo) as [(l1 & c & l2 & -> & H1 & Hc & ->)|[H1 ->]].
  - intros h r. rewrite head_app_cons. intros Hh Hr.
    assert (Hch : (blk_rq_pos m h ≤ blk_rq_pos m c)%Z).
    { apply Hmin; [done|]. set_solver. }
    simpl in Hc.
    assert (r = rq ∨ r ∈ l1 ++ c :: l2) as [->|Hin] by set_solver.
    + lia.
    + by apply Hmin.
  - simpl. intros h r [= <-] [->|Hr]%elem_of_cons; [lia|].
    specialize (H1 r Hr). simpl in H1. lia.
Qed.

(** X3.  While requests are only added, the head of the Higher queue is an
    entry with the LARGEST start sector: if it is so before, it is so
    after any number of requests at or above the last position have been
    added.  With the Lower queue empty, the next dispatch therefore hands
    over a request at the largest start sector of the Higher queue. *)
Theorem X3_higher_head_is_largest fuel force rqs : ∀ m hi lo out,
  wf m hi lo out → NoDup rqs →
  (∀ r, r ∈ rqs → r ∉ hi ++ lo ++ out) →
  (∀ r, r ∈ rqs → (prev_pos (elevator_data m) ≤ blk_rq_pos m r)%Z) →
  head_is_max m hi → length hi + length rqs ≤ fuel →
  ∃ m' hi',
    add_requests fuel rqs m = Some m' ∧ wf m' hi' lo out ∧
    hi' ≡ₚ rqs ++ hi ∧ head_is_max m' hi' ∧
    (∀ r, blk_rq_pos m' r = blk_rq_pos m r) ∧
    (lo = [] → ∀ t, head hi' = Some t →
       dispatch_request force m' = Some (Some t, dispatch_effect t m') ∧
       ∀ r, r ∈ rqs ++ hi → (blk_rq_pos m r ≤ blk_rq_pos m t)%Z).
Proof.
  induction rqs as [|rq rqs IH]; intros m hi lo out Hwf Hnd Hfresh Hcls Hmax Hlen.
  - exists m, hi. simpl. split_and!; try done.
    intros -> t Ht. split.
    + rewrite (dispatch_request_wf force m hi [] out) by done.
      unfold select_head. by destruct hi as [|? ?]; simplify_eq/=.
    + intros r Hr. by apply Hmax.
  - apply NoDup_cons in Hnd as [Hrq Hnd]. simpl in Hlen.
    destruct (add_to_higher_head_is_max m hi lo out fuel rq)
      as (m1 & hi1 & E1 & Hwf1 & (Hp1 & Hs1 & Hl1) & Hperm1 & Hmax1);
      [done|apply Hfresh; set_solver|lia|done|].
    destruct (IH m1 hi1 lo out) as (m' & hi' & E & Hwf' & Hperm & Hmax' & Hs' & Hd);
      [done|done| | |done| |].
    + intros r Hr. rewrite Hperm1.
      assert (r ≠ rq) by (intros ->; done).
      specialize (Hfresh r ltac:(set_solver)). set_solver.
    + intros r Hr. rewrite Hp1, Hs1. apply Hcls. set_solver.
    + rewrite Hperm1. simpl. lia.
    + exists m', hi'. split_and!.
      * simpl. unfold greedy_add_request.
        destruct (Z.gtb_spec (prev_pos (elevator_data m)) (blk_rq_pos m rq))
          as [Hgt|_].
        -- specialize (Hcls rq ltac:(set_solver)). lia.
        -- rewrite E1. simpl. exact E.
      * done.
      * rewrite Hperm, Hperm1. simpl. by rewrite Permutation_middle.
      * done.
      * intros r. by rewrite Hs', Hs1.
      * intros Hlo t Ht. destruct (Hd Hlo t Ht) as [Hd1 Hd2].
        split; [done|]. intros r Hr. rewrite <- !Hs1. apply Hd2.
        rewrite Hperm1. set_solver.
Qed.

Lemma X3_higher_head_is_largest_witness :
  ∃ m' hi',
    add_requests 4 [1; 2; 3; 4]%N scenario_A = Some m' ∧
    wf m' hi' [] [] ∧
    hi' ≡ₚ [1; 2; 3; 4]%N ++ [] ∧ head_is_max m' hi' ∧
    (∀ r, blk_rq_pos m' r = blk_rq_pos scenario_A r) ∧
    (@nil rq_ptr = [] → ∀ t, head hi' = Some t →
       dispatch_request 0 m' = Some (Some t, dispatch_effect t m') ∧
       ∀ r, r ∈ [1; 2; 3; 4]%N ++ [] →
         (blk_rq_pos scenario_A r ≤ blk_rq_pos scenario_A t)%Z).
Proof.
  apply (X3_higher_head_is_largest 4 0 [1; 2; 3; 4]%N scenario_A [] [] []).
  - compute_done.
  - compute_done.
  - intros r _. simpl. apply not_elem_of_nil.
  - intros r Hr. change (prev_pos (elevator_data scenario_A)) with 0%Z.
    repeat (apply elem_of_cons in Hr as [->|Hr]; [by vm_compute|]).
    by apply elem_of_nil in Hr.
  - intros h r Hh. discriminate Hh.
  - simpl. lia.
Defined.

(** X4.  While requests are only added, the head of the Lower queue is an
    entry with the SMALLEST start sector: if it is so before, it is so
    after any number of requests below the last position have been added.
    With the Higher queue empty, the next dispatch therefore hands over a
    request at the smallest start sector of the Lower queue. *)
Theorem X4_lower_head_is_smallest fuel force rqs : ∀ m hi lo out,
  wf m hi lo out → NoDup rqs →
  (∀ r, r ∈ rqs → r ∉ hi ++ lo ++ out) →
  (∀ r, r ∈ rqs → (blk_rq_pos m r < prev_pos (elevator_data m))%Z) →
  head_is_min m lo → length lo + length rqs ≤ fuel →
  ∃ m' lo',
    add_requests fuel rqs m = Some m' ∧ wf m' hi lo' out ∧
    lo' ≡ₚ rqs ++ lo ∧ head_is_min m' lo' ∧
    (∀ r, blk_rq_pos m' r = blk_rq_pos m r) ∧
    (hi = [] → ∀ t, head lo' = Some t →
       dispatch_request force m' = Some (Some t, dispatch_effect t m') ∧
       ∀ r, r ∈ rqs ++ lo → (blk_rq_pos m t ≤ blk_rq_pos m r)%Z).
Proof.
  induction rqs as [|rq rqs IH]; intros m hi lo out Hwf Hnd Hfresh Hcls Hmin Hlen.
  - exists m, lo. simpl. split_and!; try done.
    intros -> t Ht. split.
    + rewrite (dispatch_request_wf force m [] lo out) by done.
      unfold select_head. by destruct lo as [|? ?]; simplify_eq/=.
    + intros r Hr. by apply Hmin.
  - apply NoDup_cons in Hnd as [Hrq Hnd]. simpl in Hlen.
    destruct (add_to_lower_head_is_min m hi lo out fuel rq)
      as (m1 & lo1 & E1 & Hwf1 & (Hp1 & Hs1 & Hl1) & Hperm1 & Hmin1);
      [done|apply Hfresh; set_solver|lia|done|].
    destruct (IH m1 hi lo1 out) as (m' & lo' & E & Hwf' & Hperm & Hmin' & Hs' & Hd);
      [done|done| | |done| |].
    + intros r Hr. rewrite Hperm1.
      assert (r ≠ rq) by (intros ->; done).
      specialize (Hfresh r ltac:(set_solver)). set_solver.
    + intros r Hr. rewrite Hp1, Hs1. apply Hcls. set_solver.
    + rewrite Hperm1. simpl. lia.
    + exists m', lo'. split_and!.
      * simpl. unfold greedy_add_request.
        destruct (Z.gtb_spec (prev_pos (elevator_data m)) (blk_rq_pos m rq))
          as [_|Hle].
        -- rewrite E1. simpl. exact E.
        -- specialize (Hcls rq ltac:(set_solver)). lia.
      * done.
      * rewrite Hperm, Hperm1. simpl. by rewrite Permutation_middle.
      * done.
      * intros r. by rewrite Hs', Hs1.
      * intros Hhi t Ht. destruct (Hd Hhi t Ht) as [Hd1 Hd2].
        split; [done|]. intros r Hr. rewrite <- !Hs1. apply Hd2.
        rewrite Hperm1. set_solver.
Qed.

Lemma X4_lower_head_is_smallest_witness :
  ∃ m' lo',
    add_requests 4 [1; 4]%N scenario_B_start = Some m' ∧
    wf m' [] lo' [3%N] ∧
    lo' ≡ₚ [1; 4]%N ++ [] ∧ head_is_min m' lo' ∧
    (∀ r, blk_rq_pos m' r = blk_rq_pos scenario_B_start r) ∧
    (@nil rq_ptr = [] → ∀ t, head lo' = Some t →
       dispatch_request 0 m' = Some (Some t, dispatch_effect t m') ∧
       ∀ r, r ∈ [1; 4]%N ++ [] →
         (blk_rq_pos scenario_B_start t ≤ blk_rq_pos scenario_B_start r)%Z).
Proof.
  apply (X4_lower_head_is_smallest 4 0 [1; 4]%N scenario_B_start [] [] [3%N]).
  - compute_done.
  - compute_done.
  - intros r Hr. simpl.
    repeat (apply elem_of_cons in Hr as [->|Hr]; [compute_done|]).
    by apply elem_of_nil in Hr.
  - intros r Hr.
    repeat (apply elem_of_cons in Hr as [->|Hr]; [by vm_compute|]).
    by apply elem_of_nil in Hr.
  - intros h r Hh. discriminate Hh.
  - simpl. lia.
Defined.

(** ** What a dispatch does to the lists *)

Lemma dispatch_lists force m hi lo out :
  wf m hi lo out → hi ++ lo ≠ [] →
  ∃ t hi' lo',
    greedy_dispatch force m = Some (1%Z, dispatch_effect t m) ∧
    dispatch_request force m = Some (Some t, dispatch_effect t m) ∧
    ((hi = t :: hi' ∧ lo' = lo) ∨ (lo = t :: lo' ∧ hi' = hi)) ∧
    (lo = [] → head hi = Some t) ∧ (hi = [] → head lo = Some t) ∧
    wf (dispatch_effect t m) hi' lo' (out ++ [t]) ∧
    prev_pos (elevator_data (dispatch_effect t m)) = rq_end_sector m t ∧
    (∀ r, blk_rq_pos (dispatch_effect t m) r = blk_rq_pos m r).
Proof.
  intros Hwf Hne.
  destruct (wf_inv _ _ _ _ Hwf) as (Hhi & Hlo & _ & Hd1 & _).
  destruct (select_head m hi lo) as [t|] eqn:Hsel.
  2: { unfold select_head in Hsel.
       destruct hi, lo; simpl in Hsel; try done.
       by destruct (_ >? _)%Z. }
  pose proof (select_head_in _ _ _ _ Hsel) as [Hhead Ht].
  destruct (dispatch_effect_wf m hi lo out t Hwf Ht)
    as (Hwf' & Hp & Hs & _).
  assert (Hcase : (∃ hi', hi = t :: hi' ∧ t ∉ lo) ∨
                  (∃ lo', lo = t :: lo' ∧ t ∉ hi)).
  { destruct Hhead as [Hh|Hh].
    - left. destruct hi as [|a hi']; simplify_eq/=. exists hi'.
      split; [done|]. apply Hd1. set_solver.
    - right. destruct lo as [|a lo']; simplify_eq/=. exists lo'.
      split; [done|]. intros Hin. apply (Hd1 t Hin). set_solver. }
  destruct Hcase as [(hi' & -> & Hn)|(lo' & -> & Hn)].
  - rewrite list_del_entries_head in Hwf' by done.
    rewrite list_del_entries_notin in Hwf' by done.
    exists t, hi', lo. split_and!; try done.
    + by rewrite (greedy_dispatch_wf force _ _ _ _ Hwf), Hsel.
    + by rewrite (dispatch_request_wf force _ _ _ _ Hwf), Hsel.
    + by left.
  - rewrite list_del_entries_head in Hwf' by done.
    rewrite list_del_entries_notin in Hwf' by done.
    exists t, hi, lo'. split_and!; try done.
    + by rewrite (greedy_dispatch_wf force _ _ _ _ Hwf), Hsel.
    + by rewrite (dispatch_request_wf force _ _ _ _ Hwf), Hsel.
    + by right.
Qed.

(** X5.  When a queue holds a request, [greedy_dispatch] returns 1 and
    takes exactly the head of the Higher or of the Lower queue: the rest
    of that queue keeps its order, the other queue is as before, and the
    request goes to the TAIL of the dispatch list.  With the Lower queue
    empty the head of Higher is taken, with the Higher queue empty the
    head of Lower. *)
Theorem X5_dispatch_takes_a_head force m hi lo out :
  wf m hi lo out → hi ++ lo ≠ [] →
  ∃ t hi' lo',
    greedy_dispatch force m = Some (1%Z, dispatch_effect t m) ∧
    dispatch_request force m = Some (Some t, dispatch_effect t m) ∧
    ((hi = t :: hi' ∧ lo' = lo) ∨ (lo = t :: lo' ∧ hi' = hi)) ∧
    (lo = [] → head hi = Some t) ∧ (hi = [] → head lo = Some t) ∧
    wf (dispatch_effect t m) hi' lo' (out ++ [t]) ∧
    prev_pos (elevator_data (dispatch_effect t m)) = rq_end_sector m t ∧
    (∀ r, blk_rq_pos (dispatch_effect t m) r = blk_rq_pos m r).
Proof. apply dispatch_lists. Qed.

Lemma X5_dispatch_takes_a_head_witness :
  ∃ t hi' lo',
    greedy_dispatch 0 scenario_A_queued
      = Some (1%Z, dispatch_effect t scenario_A_queued) ∧
    dispatch_request 0 scenario_A_queued
      = Some (Some t, dispatch_effect t scenario_A_queued) ∧
    (([3; 4; 1; 2]%N = t :: hi' ∧ lo' = []) ∨
     ([] = t :: lo' ∧ hi' = [3; 4; 1; 2]%N)) ∧
    (@nil rq_ptr = [] → head [3; 4; 1; 2]%N = Some t) ∧
    ([3; 4; 1; 2]%N = [] → head (@nil rq_ptr) = Some t) ∧
    wf (dispatch_effect t scenario_A_queued) hi' lo' ([] ++ [t]) ∧
    prev_pos (elevator_data (dispatch_effect t scenario_A_queued))
      = rq_end_sector scenario_A_queued t ∧
    (∀ r, blk_rq_pos (dispatch_effect t scenario_A_queued) r
          = blk_rq_pos scenario_A_queued r).
Proof.
  apply (X5_dispatch_takes_a_head 0 scenario_A_queued [3; 4; 1; 2]%N [] []).
  - compute_done.
  - discriminate.
Defined.

(** ** Draining the scheduler *)

Lemma dispatch_requests_drain n : ∀ m hi lo out,
  wf m hi lo out → length hi + length lo = n →
  ∃ ts m',
    dispatch_requests n m = Some (Some <$> ts, m') ∧
    ts ≡ₚ hi ++ lo ∧ wf m' [] [] (out ++ ts).
Proof.
  induction n as [|n IH]; intros m hi lo out Hwf Hlen.
  - destruct hi, lo; simpl in Hlen; try lia.
    exists [], m. simpl. split_and!; try done. by rewrite app_nil_r.
  - destruct (dispatch_lists 0 m hi lo out Hwf)
      as (t & hi' & lo' & _ & Hd & Hcase & _ & _ & Hwf' & _).
    { intros Hnil. apply (f_equal length) in Hnil.
      rewrite length_app in Hnil. simpl in Hnil. lia. }
    destruct (IH (dispatch_effect t m) hi' lo' (out ++ [t]) Hwf')
      as (ts & m' & E & Hperm & Hwf'').
    { destruct Hcase as [[-> ->]|[-> ->]]; simpl in Hlen; lia. }
    exists (t :: ts), m'. split_and!.
    + simpl. rewrite Hd. simpl. rewrite E. done.
    + rewrite Hperm.
      destruct Hcase as [[-> ->]|[-> ->]]; [done|].
      by rewrite <- Permutation_middle.
    + by rewrite <- app_assoc in Hwf''.
Qed.

(** X6.  As many dispatch calls as there are queued requests empty the
    scheduler: every call hands over a request, every queued request is
    handed over exactly once, the dispatch list grows by these requests in
    the order of the calls, one more dispatch returns nothing, and
    [greedy_exit_queue] then frees the data without [BUG]. *)
Theorem X6_drain m hi lo out :
  wf m hi lo out →
  ∃ ts m',
    dispatch_requests (length hi + length lo) m = Some (Some <$> ts, m') ∧
    ts ≡ₚ hi ++ lo ∧ wf m' [] [] (out ++ ts) ∧
    dispatch_request 0 m' = Some (None, m') ∧
    greedy_exit_queue m' = Freed.
Proof.
  intros Hwf.
  destruct (dispatch_requests_drain _ m hi lo out Hwf eq_refl)
    as (ts & m' & E & Hperm & Hwf').
  exists ts, m'. split_and!; try done.
  - by rewrite (dispatch_request_wf 0 m' [] [] (out ++ ts)).
  - destruct Hwf' as (_ & Lhi & Llo & _).
    destruct (list_empty_is_list m' gd_higher []) as [Eh _]; [done..|].
    destruct (list_empty_is_list m' gd_lower []) as [El _]; [done..|].
    unfold greedy_exit_queue. by rewrite Eh, El.
Qed.

Lemma X6_drain_witness :
  ∃ ts m',
    dispatch_requests (length [1%N] + length [3%N]) seek_final
      = Some (Some <$> ts, m') ∧
    ts ≡ₚ [1%N] ++ [3%N] ∧ wf m' [] [] ([2%N] ++ ts) ∧
    dispatch_request 0 m' = Some (None, m') ∧
    greedy_exit_queue m' = Freed.
Proof.
  apply (X6_drain seek_final [1%N] [3%N] [2%N]). compute_done.
Defined.

(** ** Merging a request away *)

Lemma self_linked_list_del_init m entry :
  self_linked (list_del_init entry m) entry.
Proof.
  unfold self_linked. rewrite next_list_del_init, prev_list_del_init.
  by rewrite !decide_True.
Qed.

(** X7.  [greedy_merged_requests] takes exactly [next] out of the queue
    that holds it: the entries before and after it close up in their
    order, the other queue, the dispatch list, the last position and the
    sectors of all requests stay as they are, and [next] is left linked to
    itself.  The request [rq] it was merged into plays no part. *)
Theorem X7_merge_removes_next m hi lo out rq nxt :
  wf m hi lo out → nxt ∈ hi ++ lo →
  ∃ hi' lo',
    wf (greedy_merged_requests rq nxt m) hi' lo' out ∧
    ((∃ l1 l2, hi = l1 ++ nxt :: l2 ∧ hi' = l1 ++ l2 ∧ lo' = lo) ∨
     (∃ l1 l2, lo = l1 ++ nxt :: l2 ∧ lo' = l1 ++ l2 ∧ hi' = hi)) ∧
    self_linked (greedy_merged_requests rq nxt m) (rq_queuelist nxt) ∧
    same_sectors m (greedy_merged_requests rq nxt m).
Proof.
  intros Hwf Hn.
  destruct (wf_inv _ _ _ _ Hwf) as (Hhi & Hlo & _ & Hd1 & _).
  destruct (greedy_merged_requests_wf m hi lo out rq nxt Hwf Hn)
    as [Hwf' Hs].
  eexists _, _. split_and!; [exact Hwf'| |apply self_linked_list_del_init|done].
  apply elem_of_app in Hn as [Hin|Hin].
  - left. apply list_elem_of_split in Hin as (l1 & l2 & ->).
    exists l1, l2. split_and!; [done| |].
    + by apply list_del_entries_split.
    + apply list_del_entries_notin. apply Hd1. set_solver.
  - right. apply list_elem_of_split in Hin as (l1 & l2 & ->).
    exists l1, l2. split_and!; [done| |].
    + by apply list_del_entries_split.
    + apply list_del_entries_notin. intros Hin. apply (Hd1 nxt Hin).
      set_solver.
Qed.

Lemma X7_merge_removes_next_witness :
  ∃ hi' lo',
    wf (greedy_merged_requests 3%N 4%N scenario_A_queued) hi' lo' [] ∧
    ((∃ l1 l2, [3; 4; 1; 2]%N = l1 ++ 4%N :: l2 ∧ hi' = l1 ++ l2 ∧ lo' = [])
     ∨ (∃ l1 l2, [] = l1 ++ 4%N :: l2 ∧ lo' = l1 ++ l2 ∧
                 hi' = [3; 4; 1; 2]%N)) ∧
    self_linked (greedy_merged_requests 3%N 4%N scenario_A_queued)
      (rq_queuelist 4%N) ∧
    same_sectors scenario_A_queued
      (greedy_merged_requests 3%N 4%N scenario_A_queued).
Proof.
  apply (X7_merge_removes_next scenario_A_queued [3; 4; 1; 2]%N [] []).
  - compute_done.
  - compute_done.
Defined.

Lemma list_head_eq (a b : list_head) :
  next a = next b → prev a = prev b → a = b.
Proof. destruct a, b; simpl; congruence. Qed.

(** X8.  Merging away a request that is in no list (its [queuelist] is
    linked to itself, as an earlier merge leaves it) changes no list cell
    at all: every well-formed state stays well-formed with the same queues
    and dispatch list, and the last position stays. *)
Theorem X8_merge_unlinked_is_noop m rq nxt :
  self_linked m (rq_queuelist nxt) →
  (∀ p, load (greedy_merged_requests rq nxt m) p = load m p) ∧
  prev_pos (elevator_data (greedy_merged_requests rq nxt m))
  = prev_pos (elevator_data m) ∧
  (∀ hi lo out, wf m hi lo out →
     wf (greedy_merged_requests rq nxt m) hi lo out).
Proof.
  intros [Hn Hp].
  assert (Hload : ∀ p, load (greedy_merged_requests rq nxt m) p = load m p).
  { intros p. unfold greedy_merged_requests. apply list_head_eq.
    - rewrite next_list_del_init, Hn, Hp. repeat case_decide; congruence.
    - rewrite prev_list_del_init, Hn, Hp. repeat case_decide; congruence. }
  split_and!; [done| |].
  - by destruct (same_sectors_list_del_init (rq_queuelist nxt) m) as (? & _).
  - intros hi lo out (Hnd & H1 & H2 & H3). unfold wf, is_list in *.
    split_and!; [done|..];
      (eapply chain_frame; [| |eassumption]; intros; by rewrite Hload).
Qed.

Lemma X8_merge_unlinked_is_noop_witness :
  (∀ p, load (greedy_merged_requests 3%N 4%N scenario_A_merged) p
        = load scenario_A_merged p) ∧
  prev_pos (elevator_data (greedy_merged_requests 3%N 4%N scenario_A_merged))
  = prev_pos (elevator_data scenario_A_merged) ∧
  (∀ hi lo out, wf scenario_A_merged hi lo out →
     wf (greedy_merged_requests 3%N 4%N scenario_A_merged) hi lo out).
Proof.
  apply (X8_merge_unlinked_is_noop scenario_A_merged 3%N 4%N).
  compute_done.
Defined.

(** ** Adding a request and merging it away again *)

Lemma list_del_entries_queue_add stop x l :
  x ∉ l → list_del_entries x (queue_add stop x l) = l.
Proof.
  intros Hx. unfold queue_add.
  destruct (add_after_first stop x l) as [l'|] eqn:He; simpl.
  - revert l' He. induction l as [|r l IH]; simpl; intros l'; [done|].
    apply not_elem_of_cons in Hx as [Hne Hx].
    destruct (stop r).
    + intros [= <-]. unfold list_del_entries.
      rewrite filter_cons_True by done.
      rewrite filter_cons_False by (intros ?; done).
      fold (list_del_entries x l). by rewrite list_del_entries_notin.
    + destruct (add_after_first stop x l) as [l''|]; simpl; [|done].
      intros [= <-]. unfold list_del_entries.
      rewrite filter_cons_True by done.
      fold (list_del_entries x l''). by rewrite (IH Hx l'' eq_refl).
  - unfold list_del_entries. rewrite filter_cons_False by (intros ?; done).
    fold (list_del_entries x l). by apply list_del_entries_notin.
Qed.

(** X9.  Adding a request and then merging it away restores both queues,
    entry for entry and in their order, and leaves the dispatch list and
    the last position untouched. *)
Theorem X9_add_then_merge m hi lo out fuel rq rq' :
  wf m hi lo out → rq ∉ hi ++ lo ++ out →
  length hi ≤ fuel → length lo ≤ fuel →
  ∃ m1,
    greedy_add_request fuel rq m = Some m1 ∧
    wf (greedy_merged_requests rq' rq m1) hi lo out ∧
    prev_pos (elevator_data (greedy_merged_requests rq' rq m1))
    = prev_pos (elevator_data m).
Proof.
  intros Hwf Hrq Hlh Hll.
  assert (Hrh : rq ∉ hi) by set_solver.
  assert (Hrl : rq ∉ lo) by set_solver.
  unfold greedy_add_request.
  destruct (prev_pos (elevator_data m) >? blk_rq_pos m rq)%Z.
  - destruct (add_to_lower_wf m hi lo out fuel rq Hwf Hrq Hll)
      as (m1 & E & (Hp & _) & Hwf1).
    exists m1. split; [done|].
    destruct (greedy_merged_requests_wf m1 _ _ out rq' rq Hwf1)
      as [Hwf2 (Hp2 & _)].
    { apply elem_of_app. right. apply elem_of_queue_add. by left. }
    rewrite list_del_entries_queue_add in Hwf2 by done.
    rewrite list_del_entries_notin in Hwf2 by done.
    split; [done|]. by rewrite Hp2.
  - destruct (add_to_higher_wf m hi lo out fuel rq Hwf Hrq Hlh)
      as (m1 & E & (Hp & _) & Hwf1).
    exists m1. split; [done|].
    destruct (greedy_merged_requests_wf m1 _ _ out rq' rq Hwf1)
      as [Hwf2 (Hp2 & _)].
    { apply elem_of_app. left. apply elem_of_queue_add. by left. }
    rewrite list_del_entries_queue_add in Hwf2 by done.
    rewrite list_del_entries_notin in Hwf2 by done.
    split; [done|]. by rewrite Hp2.
Qed.

Lemma X9_add_then_merge_witness :
  ∃ m1,
    greedy_add_request 4 4%N seek_final = Some m1 ∧
    wf (greedy_merged_requests 1%N 4%N m1) [1%N] [3%N] [2%N] ∧
    prev_pos (elevator_data (greedy_merged_requests 1%N 4%N m1))
    = prev_pos (elevator_data seek_final).
Proof.
  apply (X9_add_then_merge seek_final [1%N] [3%N] [2%N] 4 4%N 1%N).
  - compute_done.
  - compute_done.
  - simpl. lia.
  - simpl. lia.
Defined.

(** ** Neighbours, both ways *)

(** X10.  In a queue, "former" and "latter" undo each other: if
    [greedy_former_request] of a queued request [rq] returns [p], then
    [greedy_latter_request] of [p] returns [rq], and if
    [greedy_latter_request] of [rq] returns [n], then
    [greedy_former_request] of [n] returns [rq]. *)
Theorem X10_former_latter_inverse m hi lo out rq :
  wf m hi lo out → rq ∈ hi ++ lo →
  (∀ p, greedy_former_request rq m = Some (Some p, m) →
        greedy_latter_request p m = Some (Some rq, m)) ∧
  (∀ n, greedy_latter_request rq m = Some (Some n, m) →
        greedy_former_request n m = Some (Some rq, m)).
Proof.
  intros Hwf Hin.
  assert (∃ l1 l2, hi = l1 ++ rq :: l2 ∨ lo = l1 ++ rq :: l2)
    as (l1 & l2 & Hq).
  { apply elem_of_app in Hin as [Hin|Hin];
      apply list_elem_of_split in Hin as (l1 & l2 & ->); eauto. }
  destruct (greedy_former_latter_wf m hi lo out rq l1 l2 Hwf Hq) as [Ef El].
  split.
  - intros p. rewrite Ef. intros [= Hlast].
    destruct (decide (l1 = [])) as [->|Hne]; [done|].
    destruct (exists_last Hne) as (l1' & c & ->).
    rewrite last_snoc in Hlast. injection Hlast as ->.
    apply (greedy_former_latter_wf m hi lo out p l1' (rq :: l2) Hwf).
    by rewrite <- app_assoc in Hq.
  - intros n. rewrite El. intros [= Hhead].
    destruct l2 as [|c l2]; simplify_eq/=.
    destruct (greedy_former_latter_wf m hi lo out n (l1 ++ [rq]) l2 Hwf)
      as [E _].
    { by rewrite <- app_assoc. }
    by rewrite last_snoc in E.
Qed.

Lemma X10_former_latter_inverse_witness :
  greedy_latter_request 3%N scenario_A_queued
    = Some (Some 4%N, scenario_A_queued) ∧
  greedy_former_request 1%N scenario_A_queued
    = Some (Some 4%N, scenario_A_queued).
Proof.
  destruct (X10_former_latter_inverse scenario_A_queued [3; 4; 1; 2]%N [] []
              4%N ltac:(compute_done) ltac:(compute_done)) as [H1 H2].
  split; [apply H1|apply H2]; by vm_compute.
Defined.

(** ** The two distances as [int] *)

(** X11.  The distances are kept in [int]s.  When the head of Higher is
    2^31 sectors or more (and less than 2^32) above the last position,
    [up_dist] wraps to a negative number, so the dispatch takes the head
    of Higher even though the head of Lower, at or below the last position
    and less than 2^31 sectors away, is nearer. *)
Theorem X11_up_dist_overflow force m t l :
  list_empty gd_higher m = false → list_empty gd_lower m = false →
  list_first_entry gd_higher m = Some t →
  list_first_entry gd_lower m = Some l →
  (2 ^ 31 ≤ blk_rq_pos m t - prev_pos (elevator_data m) < 2 ^ 32)%Z →
  (0 ≤ prev_pos (elevator_data m) - blk_rq_pos m l < 2 ^ 31)%Z →
  to_int (to_sector (blk_rq_pos m t - prev_pos (elevator_data m)))
  = (blk_rq_pos m t - prev_pos (elevator_data m) - 2 ^ 32)%Z ∧
  dispatch_request force m = Some (Some t, dispatch_effect t m) ∧
  ¬ nearest_head m t.
Proof.
  intros Eh El Fh Fl Hup Hdown.
  assert (Hu : to_int (blk_rq_pos m t - prev_pos (elevator_data m))
               = (blk_rq_pos m t - prev_pos (elevator_data m) - 2 ^ 32)%Z)
    by (by apply to_int_wrap).
  assert (Hd : to_int (prev_pos (elevator_data m) - blk_rq_pos m l)
               = (prev_pos (elevator_data m) - blk_rq_pos m l)%Z)
    by (apply to_int_id; lia).
  split_and!.
  - by rewrite to_int_to_sector.
  - rewrite (dispatch_request_both force m t l) by done.
    rewrite Hu, Hd.
    destruct (Z.gtb_spec
      (blk_rq_pos m t - prev_pos (elevator_data m) - 2 ^ 32)
      (prev_pos (elevator_data m) - blk_rq_pos m l)); [lia|done].
  - intros Hnear. specialize (Hnear gd_lower l (or_intror eq_refl) Fl). lia.
Qed.

Lemma X11_up_dist_overflow_witness :
  to_int (to_sector (blk_rq_pos far_state 1%N
                     - prev_pos (elevator_data far_state)))
  = (blk_rq_pos far_state 1%N - prev_pos (elevator_data far_state)
     - 2 ^ 32)%Z ∧
  dispatch_request 0 far_state = Some (Some 1%N, dispatch_effect 1%N far_state) ∧
  ¬ nearest_head far_state 1%N.
Proof.
  apply (X11_up_dist_overflow 0 far_state 1%N 2%N); by vm_compute.
Defined.

(** X12.  A head of Higher that lies BELOW the last position (by at most
    2^31 sectors) is taken whenever the head of Lower is at or below the
    last position and less than 2^31 sectors away, however near the head
    of Lower is: [up_dist] is negative and never exceeds [down_dist]. *)
Theorem X12_higher_head_below_position force m t l :
  list_empty gd_higher m = false → list_empty gd_lower m = false →
  list_first_entry gd_higher m = Some t →
  list_first_entry gd_lower m = Some l →
  (- 2 ^ 31 ≤ blk_rq_pos m t - prev_pos (elevator_data m) < 0)%Z →
  (0 ≤ prev_pos (elevator_data m) - blk_rq_pos m l < 2 ^ 31)%Z →
  dispatch_request force m = Some (Some t, dispatch_effect t m) ∧
  ((blk_rq_pos m t < blk_rq_pos m l)%Z → ¬ nearest_head m t).
Proof.
  intros Eh El Fh Fl Hup Hdown.
  assert (Hu : to_int (blk_rq_pos m t - prev_pos (elevator_data m))
               = (blk_rq_pos m t - prev_pos (elevator_data m))%Z)
    by (apply to_int_id; lia).
  assert (Hd : to_int (prev_pos (elevator_data m) - blk_rq_pos m l)
               = (prev_pos (elevator_data m) - blk_rq_pos m l)%Z)
    by (apply to_int_id; lia).
  split.
  - rewrite (dispatch_request_both force m t l) by done.
    rewrite Hu, Hd.
    destruct (Z.gtb_spec
      (blk_rq_pos m t - prev_pos (elevator_data m))
      (prev_pos (elevator_data m) - blk_rq_pos m l)); [lia|done].
  - intros Hlt Hnear.
    specialize (Hnear gd_lower l (or_intror eq_refl) Fl). lia.
Qed.

Lemma X12_higher_head_below_position_witness :
  dispatch_request 0 seek_final
    = Some (Some 1%N, dispatch_effect 1%N seek_final) ∧
  ((blk_rq_pos seek_final 1%N < blk_rq_pos seek_final 3%N)%Z →
   ¬ nearest_head seek_final 1%N).
Proof.
  apply (X12_higher_head_below_position 0 seek_final 1%N 3%N);
    by vm_compute.
Defined.

(** ** Any sequence of calls *)

Lemma rq_end_sector_range m t : (0 ≤ rq_end_sector m t < 2 ^ 64)%Z.
Proof. unfold rq_end_sector, to_sector, sector_bits. apply Z.mod_pos_bound. lia. Qed.

Lemma elevator_greedy_step_out fuel c m hi lo out m' hi' lo' out' :
  wf m hi lo out → call_ok c hi lo out →
  length hi ≤ fuel → length lo ≤ fuel →
  elevator_greedy fuel c m = Some m' → wf m' hi' lo' out' →
  (∃ ds, out' = out ++ ds) ∧
  ((0 ≤ prev_pos (elevator_data m) < 2 ^ 64)%Z →
   (0 ≤ prev_pos (elevator_data m') < 2 ^ 64)%Z).
Proof.
  intros Hwf Hok Hlh Hll Hc Hwf'.
  destruct c as [rq|force|rq nxt|rq|rq]; simpl in *.
  - assert (∃ h l, wf m' h l out ∧ same_sectors m m') as (h & l & Hw & Hp & _).
    { unfold greedy_add_request in Hc.
      destruct (_ >? _)%Z.
      - destruct (add_to_lower_wf m hi lo out fuel rq)
          as (m1 & E & Hs & Hw); [done..|].
        rewrite Hc in E. injection E as <-. eauto.
      - destruct (add_to_higher_wf m hi lo out fuel rq)
          as (m1 & E & Hs & Hw); [done..|].
        rewrite Hc in E. injection E as <-. eauto. }
    destruct (wf_unique _ _ _ _ _ _ _ Hwf' Hw) as (_ & _ & ->).
    split; [exists []; by rewrite app_nil_r|]. by rewrite Hp.
  - destruct (decide (hi ++ lo = [])) as [Hnil|Hne].
    + apply app_eq_nil in Hnil as [-> ->].
      rewrite (greedy_dispatch_wf force m [] [] out) in Hc by done.
      simpl in Hc. injection Hc as <-.
      destruct (wf_unique _ _ _ _ _ _ _ Hwf' Hwf) as (_ & _ & ->).
      split; [exists []; by rewrite app_nil_r|done].
    + destruct (dispatch_lists force m hi lo out Hwf Hne)
        as (t & h & l & E & _ & _ & _ & _ & Hw & Hp & _).
      rewrite E in Hc. simpl in Hc. injection Hc as <-.
      destruct (wf_unique _ _ _ _ _ _ _ Hwf' Hw) as (_ & _ & ->).
      split; [by exists [t]|]. intros _. rewrite Hp.
      apply rq_end_sector_range.
  - injection Hc as <-.
    destruct (greedy_merged_requests_wf m hi lo out rq nxt Hwf Hok)
      as [Hw (Hp & _)].
    destruct (wf_unique _ _ _ _ _ _ _ Hwf' Hw) as (_ & _ & ->).
    split; [exists []; by rewrite app_nil_r|]. by rewrite Hp.
  - assert (m' = m) as ->.
    { apply elem_of_app in Hok as [Hin|Hin];
        apply list_elem_of_split in Hin as (l1 & l2 & ->).
      - destruct (greedy_former_latter_wf m _ lo out rq l1 l2 Hwf
                    (or_introl eq_refl)) as [E _].
        rewrite E in Hc. by injection Hc.
      - destruct (greedy_former_latter_wf m hi _ out rq l1 l2 Hwf
                    (or_intror eq_refl)) as [E _].
        rewrite E in Hc. by injection Hc. }
    destruct (wf_unique _ _ _ _ _ _ _ Hwf' Hwf) as (_ & _ & ->).
    split; [exists []; by rewrite app_nil_r|done].
  - assert (m' = m) as ->.
    { apply elem_of_app in Hok as [Hin|Hin];
        apply list_elem_of_split in Hin as (l1 & l2 & ->).
      - destruct (greedy_former_latter_wf m _ lo out rq l1 l2 Hwf
                    (or_introl eq_refl)) as [_ E].
        rewrite E in Hc. by injection Hc.
      - destruct (greedy_former_latter_wf m hi _ out rq l1 l2 Hwf
                    (or_intror eq_refl)) as [_ E].
        rewrite E in Hc. by injection Hc. }
    destruct (wf_unique _ _ _ _ _ _ _ Hwf' Hwf) as (_ & _ & ->).
    split; [exists []; by rewrite app_nil_r|done].
Qed.

(** X13.  Any sequence of calls made under the block layer's contract
    keeps the state well-formed (the three lists stay circular and doubly
    linked, no request sits in two of them) and keeps the start sectors of
    the requests; the dispatch list only grows, at its tail; the last
    position stays a sector number; and no request is lost: a request that
    was queued is, at the end, still queued, or among the requests handed
    to the dispatch list, or was merged away by one of the calls. *)
Theorem X13_run_invariant fuel cs : ∀ m m2 hi lo out,
  elevator_run fuel m cs m2 → wf m hi lo out →
  ∃ hi2 lo2 ds,
    wf m2 hi2 lo2 (out ++ ds) ∧
    (∀ r, blk_rq_pos m2 r = blk_rq_pos m r) ∧
    ((0 ≤ prev_pos (elevator_data m) < 2 ^ 64)%Z →
     (0 ≤ prev_pos (elevator_data m2) < 2 ^ 64)%Z) ∧
    (∀ r, r ∈ hi ++ lo →
       r ∈ hi2 ++ lo2 ∨ r ∈ ds ∨ ∃ rq, elevator_merge_req_fn rq r ∈ cs).
Proof.
  induction cs as [|c cs IH]; intros m m2 hi lo out Hrun Hwf.
  - inversion Hrun; subst. exists hi, lo, []. rewrite app_nil_r.
    split_and!; try done. by left.
  - inversion Hrun as [|? ? ? m1 ? hi0 lo0 out0 Hwf0 Hok Hlh Hll Hc Hrest];
      subst.
    destruct (wf_unique _ _ _ _ _ _ _ Hwf Hwf0) as (<- & <- & <-).
    destruct (elevator_greedy_step fuel c m hi lo out)
      as (m1' & hi1 & lo1 & out1 & Hc' & Hwf1 & Hs1 & _ & _ & _ & Hkeep);
      [done..|].
    rewrite Hc in Hc'. injection Hc' as <-.
    destruct (elevator_greedy_step_out fuel c m hi lo out m1 hi1 lo1 out1)
      as [(ds1 & ->) Hpp1]; [done..|].
    destruct (IH m1 m2 hi1 lo1 (out ++ ds1) Hrest Hwf1)
      as (hi2 & lo2 & ds & Hwf2 & Hs2 & Hpp2 & Hkeep2).
    exists hi2, lo2, (ds1 ++ ds). split_and!.
    + by rewrite app_assoc.
    + intros r. by rewrite Hs2, Hs1.
    + auto.
    + intros r Hr.
      destruct (wf_inv _ _ _ _ Hwf) as (_ & _ & _ & _ & Hd2 & Hd3).
      destruct (Hkeep r Hr) as [Hq|[Ho|(rq & ->)]].
      * destruct (Hkeep2 r Hq) as [?|[?|(rq & ?)]].
        -- by left.
        -- right. left. set_solver.
        -- right. right. exists rq. set_solver.
      * right. left. apply elem_of_app in Ho as [Ho|Ho]; [|set_solver].
        exfalso. apply elem_of_app in Hr as [Hr|Hr];
          [by apply (Hd2 r)|by apply (Hd3 r)].
      * right. right. exists rq. set_solver.
Qed.

Lemma X13_run_invariant_witness :
  ∃ hi2 lo2 ds,
    wf seek_final hi2 lo2 ([] ++ ds) ∧
    (∀ r, blk_rq_pos seek_final r = blk_rq_pos seek_fresh r) ∧
    ((0 ≤ prev_pos (elevator_data seek_fresh) < 2 ^ 64)%Z →
     (0 ≤ prev_pos (elevator_data seek_final) < 2 ^ 64)%Z) ∧
    (∀ r, r ∈ @nil rq_ptr ++ [] →
       r ∈ hi2 ++ lo2 ∨ r ∈ ds ∨
       ∃ rq, elevator_merge_req_fn rq r ∈ seek_calls).
Proof.
  apply (X13_run_invariant 4 seek_calls seek_fresh seek_final [] [] []).
  - apply elevator_run_check_sound. by vm_compute.
  - compute_done.
Defined.

(** ** Creation *)

Lemma list_empty_INIT_LIST_HEAD h m : list_empty h (INIT_LIST_HEAD h m) = true.
Proof.
  unfold list_empty, INIT_LIST_HEAD.
  rewrite next_set_prev, next_set_next, decide_True by done.
  by apply bool_decide_eq_true_2.
Qed.

(** X14.  [greedy_init_queue] returns -ENOMEM and touches nothing when
    either allocation fails.  When both succeed it returns 0 and leaves
    both queues empty and the last position at 0, whatever the memory held
    before; the dispatch list and the requests are as they were.  A
    scheduler so created has nothing to dispatch and can be torn down at
    once. *)
Theorem X14_init_queue eq_ok gd_ok m0 :
  (eq_ok && gd_ok = false →
   greedy_init_queue eq_ok gd_ok m0 = ((- ENOMEM)%Z, m0)) ∧
  greedy_exit_queue (snd (greedy_init_queue true true m0)) = Freed ∧
  (∀ force,
     greedy_dispatch force (snd (greedy_init_queue true true m0))
     = Some (0%Z, snd (greedy_init_queue true true m0))) ∧
  (∀ out, NoDup out → is_list m0 q_queue_head out →
     fst (greedy_init_queue true true m0) = 0%Z ∧
     wf (snd (greedy_init_queue true true m0)) [] [] out ∧
     prev_pos (elevator_data (snd (greedy_init_queue true true m0))) = 0%Z ∧
     ∀ r, blk_rq_pos (snd (greedy_init_queue true true m0)) r
          = blk_rq_pos m0 r).
Proof.
  assert (Eh : list_empty gd_higher (snd (greedy_init_queue true true m0))
               = true).
  { simpl. unfold list_empty. rewrite load_set_prev_pos.
    unfold INIT_LIST_HEAD. apply bool_decide_eq_true_2.
    rewrite !next_set_prev, !next_set_next. by repeat case_decide. }
  assert (El : list_empty gd_lower (snd (greedy_init_queue true true m0))
               = true).
  { simpl. unfold list_empty. rewrite load_set_prev_pos.
    apply list_empty_INIT_LIST_HEAD. }
  split_and!.
  - unfold greedy_init_queue. by destruct eq_ok, gd_ok.
  - unfold greedy_exit_queue. by rewrite Eh, El.
  - intros force. unfold greedy_dispatch, greedy_dispatch_target.
    by rewrite Eh, El.
  - intros out Hnd Hl.
    destruct (greedy_init_queue_wf m0 out Hnd Hl) as (? & ? & ? & ? & _).
    done.
Qed.

Lemma X14_init_queue_witness :
  greedy_init_queue false true (boot_mem scenario_A_sectors 1)
  = ((- ENOMEM)%Z, boot_mem scenario_A_sectors 1) ∧
  fst (greedy_init_queue true true (boot_mem scenario_A_sectors 1)) = 0%Z ∧
  wf scenario_A [] [] [] ∧
  prev_pos (elevator_data scenario_A) = 0%Z.
Proof.
  destruct (X14_init_queue false true (boot_mem scenario_A_sectors 1))
    as (H1 & _ & _ & H4).
  split; [exact (H1 eq_refl)|].
  destruct (H4 [] (NoDup_nil_2 (A:=rq_ptr)) ltac:(compute_done))
    as (H5 & H6 & H7 & _).
  split_and!; [exact H5|exact H6|exact H7].
Defined.
